(** * Implied volatility by bisection over a Monte Carlo pricer

    A shallow embedding of [implied_volatility.cpp]: the class [BSMmodel]
    (payoff [profit], simulation [calculatePremiums], accessor [get_price])
    and the solver [calculateImpliedVolatility].

    Numbers.  [long double] values are modelled by exact rationals ([Q]):
    the specification's data model takes them as real numbers, and the
    properties of the pricer and of the brackets are about that
    idealisation.  Equality of values is [==] ([Qeq]).  How long the loop of
    the solver runs depends on the rounding of the midpoint: for that
    question the loop is modelled a second time ([rounded_bisect]), every
    operation on [long double] being the exact one followed by rounding to
    the nearest value with a significand of 64 bits, ties to even.
    Infinities, NaN and the limits of the exponent are outside both models.

    Library functions.  [exp], [log], [sqrt] of <cmath> and the sampler
    [std::normal_distribution] over [std::mt19937] are parameters of the
    development: every theorem holds for whatever they compute.

    Effects.  [assert] is modelled in the [option] monad ([None] is the
    abort).  The generator is threaded explicitly, and the entropy source
    [std::random_device] is a stream of fresh generator states, one per
    constructed [BSMmodel].  The unbounded [while] loop of the solver takes
    a fuel argument that counts the executions of its body. *)

From Stdlib Require Import QArith Qminmax Qround ZArith Lia Lqa Ascii.
From Stdlib Require Import Qpower Qabs.
From stdpp Require Import list.

Local Open Scope Q_scope.

(** ** Numbers *)

(** [typedef long double ld;] *)
Definition ld : Type := Q.

(** The comparison [a < b] as the code evaluates it. *)
Definition ld_ltb (a b : ld) : bool :=
  if Qlt_le_dec a b then true else false.

(** [std::max(a, b)] is [(a < b) ? b : a]. *)
Definition std_max (a b : ld) : ld :=
  if ld_ltb a b then b else a.

(** [std::accumulate(first, last, 0.0)]: a left fold of [+]. *)
Definition accumulate (v : list ld) (init : ld) : ld :=
  fold_left Qplus v init.

(** ** The pricer: class [BSMmodel] *)

Record BSMmodel : Type := {
  Time : ld;    (* to maturity *)
  Spot : ld;
  Strike : ld;
  r : ld;       (* risk free rate *)
  Sigma : ld;   (* volatility *)
  call : ld;
  put : ld
}.

(** [assert(type == 'c' || type == 'p')] *)
Definition type_ok (type : ascii) : bool :=
  (type =? "c")%char || (type =? "p")%char.

(** [ld profit(ld x, char type)] *)
Definition profit (this : BSMmodel) (x : ld) (type : ascii) : option ld :=
  if type_ok type then
    if (type =? "c")%char then Some (std_max 0 (x - Strike this))
    else Some (std_max (Strike this - x) 0)
  else None.

(** [ld get_price(char type)] *)
Definition get_price (this : BSMmodel) (type : ascii) : option ld :=
  if type_ok type then
    if (type =? "c")%char then Some (call this)
    else Some (put this)
  else None.

(** ** The simulation: [calculatePremiums] *)

Section Pricer.

(** States of the generator [std::mt19937 gen]. *)
Context {G : Type}.

(** [std::normal_distribution<> d{mean, stddev}; d(gen)]: the value drawn
    and the generator after the draw. *)
Variable normal_draw : G -> ld -> ld -> ld * G.

(** [exp], [log] and [sqrt] of <cmath>. *)
Variables ld_exp ld_log ld_sqrt : ld -> ld.

(** The local variables of [calculatePremiums] that its loops mutate. *)
Record sim : Type := {
  spots : list ld;
  call_profits : list ld;
  put_profits : list ld;
  best_call_profit : ld;
  best_put_profit : ld;
  gen : G
}.

(** The body of [for (int i = 0; i < simulations_num; i++)]. *)
Definition path_body (this : BSMmodel) (dt : ld) (i : nat) (st : sim)
  : option sim :=
  let prev_price := nth i (spots st) 0 in
  let '(log_new_price, gen') :=
    normal_draw (gen st)
      (ld_log prev_price + (r this - Sigma this * Sigma this / 2) * dt)
      (Sigma this * ld_sqrt dt) in
  let spots' := <[i := ld_exp log_new_price]> (spots st) in
  c ← profit this (nth i spots' 0) "c";
  let call_profits' := <[i := c]> (call_profits st) in
  p ← profit this (nth i spots' 0) "p";
  let put_profits' := <[i := p]> (put_profits st) in
  Some {| spots := spots';
          call_profits := call_profits';
          put_profits := put_profits';
          best_call_profit := best_call_profit st;
          best_put_profit := best_put_profit st;
          gen := gen' |}.

(** The inner loop: [n] iterations are left, the next index is [i]. *)
Fixpoint path_loop (this : BSMmodel) (dt : ld) (n i : nat) (st : sim)
  : option sim :=
  match n with
  | O => Some st
  | S n' => st' ← path_body this dt i st; path_loop this dt n' (S i) st'
  end.

(** The body of [for (int time = 1; time <= time_nums; time++)]. *)
Definition time_body (this : BSMmodel) (dt : ld) (simulations_num : Z)
    (st : sim) : option sim :=
  st' ← path_loop this dt (Z.to_nat simulations_num) 0 st;
  let call_average :=
    accumulate (call_profits st') 0 / inject_Z simulations_num in
  let put_average :=
    accumulate (put_profits st') 0 / inject_Z simulations_num in
  Some {| spots := spots st';
          call_profits := call_profits st';
          put_profits := put_profits st';
          best_call_profit := std_max (best_call_profit st') call_average;
          best_put_profit := std_max (best_put_profit st') put_average;
          gen := gen st' |}.

(** The outer loop, [steps] iterations left. *)
Fixpoint time_loop (this : BSMmodel) (dt : ld) (simulations_num : Z)
    (steps : nat) (st : sim) : option sim :=
  match steps with
  | O => Some st
  | S steps' =>
      st' ← time_body this dt simulations_num st;
      time_loop this dt simulations_num steps' st'
  end.

(** [void calculatePremiums(int simulations_num, int time_nums)], run on
    the object [this] with the generator seeded to [seed]; the result is
    the object with [call] and [put] assigned.  The constructor, its only
    caller, passes 10000 and 100; a negative [simulations_num], at which
    the constructor of [std::vector] throws, is outside the model, which
    reads it as no path. *)
Definition calculatePremiums (seed : G) (this : BSMmodel)
    (simulations_num time_nums : Z) : option BSMmodel :=
  let dt := Time this / inject_Z time_nums in
  let st0 :=
    {| spots := replicate (Z.to_nat simulations_num) (Spot this);
       call_profits := replicate (Z.to_nat simulations_num) 0;
       put_profits := replicate (Z.to_nat simulations_num) 0;
       best_call_profit := 0;  (* if we expire options at time 0 *)
       best_put_profit := 0;
       gen := seed |} in
  st ← time_loop this dt simulations_num (Z.to_nat time_nums) st0;
  Some {| Time := Time this; Spot := Spot this; Strike := Strike this;
          r := r this; Sigma := Sigma this;
          call := best_call_profit st;
          put := best_put_profit st |}.

(** The constructor [BSMmodel(_Time, _Spot, _Strike, _r, _Sigma)].  The
    members [call] and [put] are indeterminate until [calculatePremiums]
    assigns them and nothing reads them before; the default arguments
    [simulations_num = 10000] and [time_nums = 100] are passed. *)
Definition BSMmodel_new (seed : G) (_Time _Spot _Strike _r _Sigma : ld)
  : option BSMmodel :=
  calculatePremiums seed
    {| Time := _Time; Spot := _Spot; Strike := _Strike; r := _r;
       Sigma := _Sigma; call := 0; put := 0 |}
    10000 100.

(** The state in which [calculatePremiums] enters its outer loop. *)
Definition sim_init (seed : G) (this : BSMmodel) (simulations_num : Z)
  : sim :=
  {| spots := replicate (Z.to_nat simulations_num) (Spot this);
     call_profits := replicate (Z.to_nat simulations_num) 0;
     put_profits := replicate (Z.to_nat simulations_num) 0;
     best_call_profit := 0;
     best_put_profit := 0;
     gen := seed |}.

(** The three vectors have [n] entries each. *)
Definition sim_sized (n : nat) (st : sim) : Prop :=
  length (spots st) = n /\ length (call_profits st) = n /\
  length (put_profits st) = n.

(** *** The simulation as the specification words it

    One step of the discretised geometric Brownian motion: every path, in
    order, draws from the normal distribution with mean
    [log prev + (rate - sigma^2/2) dt] and standard deviation
    [sigma sqrt dt], and its new price is [exp] of the draw. *)
Definition gbm_mean (rate sigma dt prev : ld) : ld :=
  ld_log prev + (rate - sigma * sigma / 2) * dt.

Definition gbm_stddev (sigma dt : ld) : ld :=
  sigma * ld_sqrt dt.

Fixpoint gbm_advance (rate sigma dt : ld) (g : G) (prices : list ld)
  : list ld * G :=
  match prices with
  | [] => ([], g)
  | prev :: rest =>
      let '(draw, g1) :=
        normal_draw g (gbm_mean rate sigma dt prev) (gbm_stddev sigma dt) in
      let '(rest', g2) := gbm_advance rate sigma dt g1 rest in
      (ld_exp draw :: rest', g2)
  end.

(** The generator before the draw of path [i] within a step. *)
Fixpoint gen_before (rate sigma dt : ld) (g : G) (prices : list ld)
    (i : nat) : G :=
  match i, prices with
  | S i', prev :: rest =>
      gen_before rate sigma dt
        (snd (normal_draw g (gbm_mean rate sigma dt prev)
                (gbm_stddev sigma dt)))
        rest i'
  | _, _ => g
  end.

(** The price vectors after steps [1 .. steps]. *)
Fixpoint gbm_paths (rate sigma dt : ld) (steps : nat) (g : G)
    (prices : list ld) : list (list ld) :=
  match steps with
  | O => []
  | S steps' =>
      let '(prices', g') := gbm_advance rate sigma dt g prices in
      prices' :: gbm_paths rate sigma dt steps' g' prices'
  end.

End Pricer.

(** The payoffs as the specification words them. *)
Definition call_payoff (K x : ld) : ld := Qmax (x - K) 0.

Definition put_payoff (K x : ld) : ld := Qmax (K - x) 0.

(** The cross-path average of the payoffs at one step. *)
Definition average_payoff (payoff : ld -> ld) (simulations_num : Z)
    (prices : list ld) : ld :=
  accumulate (map payoff prices) 0 / inject_Z simulations_num.

(** The maximum of the step averages and of the value 0 of step 0. *)
Definition best_average (payoff : ld -> ld) (simulations_num : Z)
    (paths : list (list ld)) : ld :=
  fold_right Qmax 0 (map (average_payoff payoff simulations_num) paths).

(** A sampler for running the simulation on given draws: the generator is
    the list of the values still to come, whatever the distribution asked
    for. *)
Definition scripted_draw (g : list ld) (mean stddev : ld)
  : ld * list ld :=
  (hd 0 g, tl g).

(** A contract and four scripted draws, for running the simulation on two
    paths and two steps. *)
Definition sample_contract : BSMmodel :=
  {| Time := 1; Spot := 75; Strike := 75; r := 8 # 100; Sigma := 1 # 2;
     call := 0; put := 0 |}.

Definition sample_draws : list ld := [80; 70; 74; 72].

(** ** The solver: [calculateImpliedVolatility] *)

(** What a run of the solver gives: the value returned, the abort of a
    failed [assert], or no answer within the fuel given. *)
Inductive result : Type :=
  | Done (v : ld)
  | Aborted
  | OutOfFuel.

(** The local variables [low_vol] and [high_vol]. *)
Record bracket : Type := {
  low_vol : ld;
  high_vol : ld
}.

(** What one execution of the loop body does: it goes on with an updated
    bracket, executes [return mid_vol], or aborts. *)
Inductive step : Type :=
  | Continue (b : bracket)
  | Return (v : ld)
  | Abort.

Definition width (b : bracket) : ld := high_vol b - low_vol b.

Definition mid_vol (b : bracket) : ld := (low_vol b + high_vol b) / 2.

(** [ld low_vol = 0.03, high_vol = 6;] *)
Definition initial_bracket : bracket :=
  {| low_vol := 3 # 100; high_vol := 6 |}.

(** The default argument [ld tol = 1e-5]. *)
Definition default_tol : ld := 1 # 100000.

Section Solver.

Context {G : Type}.
Variable normal_draw : G -> ld -> ld -> ld * G.
Variables ld_exp ld_log ld_sqrt : ld -> ld.

(** The arguments of [calculateImpliedVolatility]. *)
Variables (Time Spot Strike r : ld) (type : ascii) (Premium tol : ld).

(** The body of the [while] loop; [seed] is what [std::random_device]
    gives to the [BSMmodel] constructed in this iteration. *)
Definition loop_body (seed : G) (b : bracket) : step :=
  let mid_vol := (low_vol b + high_vol b) / 2 in
  match BSMmodel_new normal_draw ld_exp ld_log ld_sqrt
          seed Time Spot Strike r mid_vol with
  | None => Abort
  | Some model =>
      match get_price model type with
      | None => Abort
      | Some price =>
          if ld_ltb Premium price then
            Continue {| low_vol := low_vol b; high_vol := mid_vol |}
          else
            match get_price model type with
            | None => Abort
            | Some price' =>
                if ld_ltb price' Premium then
                  Continue {| low_vol := mid_vol; high_vol := high_vol b |}
                else Return mid_vol
            end
      end
  end.

(** [std::random_device]: [rd k] seeds the generator of the [k]-th
    [BSMmodel] that the run constructs, counting from 0. *)
Variable rd : nat -> G.

(** [while (high_vol - low_vol > tol) { ... } return low_vol;] where
    [fuel] bounds the number of executions of the body and [k] counts the
    executions made so far. *)
Fixpoint bisect (fuel k : nat) (b : bracket) : result :=
  if ld_ltb tol (high_vol b - low_vol b) then
    match fuel with
    | O => OutOfFuel
    | S fuel' =>
        match loop_body (rd k) b with
        | Continue b' => bisect fuel' (S k) b'
        | Return v => Done v
        | Abort => Aborted
        end
    end
  else Done (low_vol b).

Definition calculateImpliedVolatility (fuel : nat) : result :=
  bisect fuel O initial_bracket.

(** The brackets the loop goes through: [reachable k b] when [b] is the
    bracket at the loop test after [k] executions of the body. *)
Inductive reachable : nat -> bracket -> Prop :=
  | reach_init : reachable O initial_bracket
  | reach_step (k : nat) (b b' : bracket) :
      reachable k b ->
      ld_ltb tol (high_vol b - low_vol b) = true ->
      loop_body (rd k) b = Continue b' ->
      reachable (S k) b'.

End Solver.

(** [ceil(log2((high - low) / tol))], as a number of iterations. *)
Definition iter_bound (b : bracket) (tol : ld) : nat :=
  Z.to_nat (Z.log2_up (Qceiling ((high_vol b - low_vol b) / tol))).

(** ** The solver in rounded arithmetic

    A [long double] of the x87 format has a significand of 64 bits, a
    [double] one of 53 bits; every operation returns the value nearest to
    the exact result, the one with the even significand at a tie. *)

(** [floor(log2 x)] for a positive [x]. *)
Definition mag (x : Q) : Z :=
  let e := (Z.log2 (Qnum x) - Z.log2 (Zpos (Qden x)))%Z in
  if Qle_bool (2 ^ e) x then e else (e - 1)%Z.

(** The integer nearest to [m], the even one at a tie. *)
Definition rne (m : Q) : Z :=
  let f := Qfloor m in
  match Qcompare (m - inject_Z f) (1 # 2) with
  | Lt => f
  | Gt => (f + 1)%Z
  | Eq => if Z.even f then f else (f + 1)%Z
  end.

(** A positive [x] rounded to a significand of [prec] bits. *)
Definition round_pos (prec : Z) (x : Q) : Q :=
  let ulp := 2 ^ (mag x - (prec - 1)) in
  Qred (inject_Z (rne (x / ulp)) * ulp).

Definition round (prec : Z) (x : Q) : Q :=
  match Qcompare x 0 with
  | Eq => 0
  | Gt => round_pos prec x
  | Lt => - round_pos prec (- x)
  end.

Definition ld_round (x : Q) : ld := round 64 x.

Definition double_round (x : Q) : ld := round 53 x.

(** [a + b], [a - b] and [a / b] on [long double]. *)
Definition ld_add (a b : ld) : ld := ld_round (a + b).

Definition ld_sub (a b : ld) : ld := ld_round (a - b).

Definition ld_div (a b : ld) : ld := ld_round (a / b).

(** Half an ulp relative to the value, and twice the most that a rounded
    midpoint of two values with a sum up to 16 can be off. *)
Definition ld_unit_roundoff : Q := 2 ^ (-64).

Definition midpoint_slack : Q := 2 ^ (-58).

(** [ld low_vol = 0.03, high_vol = 6;] where [0.03] is a [double]
    literal. *)
Definition rounded_initial_bracket : bracket :=
  {| low_vol := double_round (3 # 100); high_vol := 6 |}.

(** The default argument [ld tol = 1e-5], a [double] literal. *)
Definition rounded_default_tol : ld := double_round (1 # 100000).

Section RoundedSolver.

(** [price k mid_vol] is what [model.get_price(type)] returns for the
    [k]-th [BSMmodel] of the run, constructed at [mid_vol] ([None] when the
    assertion fails): any function, as the premiums are noisy. *)
Variable price : nat -> ld -> option ld.

Variables (Premium tol : ld).

(** The body of the [while] loop. *)
Definition rounded_loop_body (k : nat) (b : bracket) : step :=
  let mid_vol := ld_div (ld_add (low_vol b) (high_vol b)) 2 in
  match price k mid_vol with
  | None => Abort
  | Some p =>
      if ld_ltb Premium p then
        Continue {| low_vol := low_vol b; high_vol := mid_vol |}
      else
        match price k mid_vol with
        | None => Abort
        | Some p' =>
            if ld_ltb p' Premium then
              Continue {| low_vol := mid_vol; high_vol := high_vol b |}
            else Return mid_vol
        end
  end.

(** [while (high_vol - low_vol > tol) { ... } return low_vol;] *)
Fixpoint rounded_bisect (fuel k : nat) (b : bracket) : result :=
  if ld_ltb tol (ld_sub (high_vol b) (low_vol b)) then
    match fuel with
    | O => OutOfFuel
    | S fuel' =>
        match rounded_loop_body k b with
        | Continue b' => rounded_bisect fuel' (S k) b'
        | Return v => Done v
        | Abort => Aborted
        end
    end
  else Done (low_vol b).

Definition rounded_calculateImpliedVolatility (fuel : nat) : result :=
  rounded_bisect fuel O rounded_initial_bracket.

End RoundedSolver.

(** What the loop keeps true of the bracket it has after [k] executions of
    the body, as long as [k] is moderate. *)
Definition rounded_inv (k : nat) (b : bracket) : Prop :=
  low_vol rounded_initial_bracket
  - inject_Z (Z.of_nat k) * midpoint_slack <= low_vol b /\
  high_vol b <= 6 + inject_Z (Z.of_nat k) * midpoint_slack /\
  width rounded_initial_bracket / inject_Z (2 ^ Z.of_nat k)
  - midpoint_slack <= width b /\
  width b <= width rounded_initial_bracket / inject_Z (2 ^ Z.of_nat k)
             + midpoint_slack.

(** ** Elementary facts on the numeric helpers *)

Lemma ld_ltb_lt (a b : ld) : ld_ltb a b = true <-> a < b.
Proof.
  unfold ld_ltb. destruct (Qlt_le_dec a b) as [Hlt | Hle].
  - tauto.
  - split; [discriminate | intros Hlt; exfalso; lra].
Qed.

Lemma ld_ltb_ge (a b : ld) : ld_ltb a b = false <-> b <= a.
Proof.
  unfold ld_ltb. destruct (Qlt_le_dec a b) as [Hlt | Hle].
  - split; [discriminate | intros Hle; exfalso; lra].
  - tauto.
Qed.

Lemma std_max_Qmax (a b : ld) : std_max a b == Qmax a b.
Proof.
  unfold std_max. destruct (ld_ltb a b) eqn:E.
  - apply ld_ltb_lt in E. symmetry. apply Q.max_r. lra.
  - apply ld_ltb_ge in E. symmetry. apply Q.max_l. exact E.
Qed.

Lemma std_max_Qmax_swap (a b : ld) : std_max a b == Qmax b a.
Proof. rewrite std_max_Qmax. apply Q.max_comm. Qed.

Lemma type_ok_spec (type : ascii) :
  type_ok type = false <-> type <> "c"%char /\ type <> "p"%char.
Proof.
  unfold type_ok. rewrite orb_false_iff, !Ascii.eqb_neq. tauto.
Qed.


(** ** The payoff [profit] and the accessor [get_price] *)

Lemma profit_call (this : BSMmodel) (x : ld) :
  profit this x "c" = Some (std_max 0 (x - Strike this)).
Proof. reflexivity. Qed.

Lemma profit_put (this : BSMmodel) (x : ld) :
  profit this x "p" = Some (std_max (Strike this - x) 0).
Proof. reflexivity. Qed.

Lemma profit_None (this : BSMmodel) (x : ld) (type : ascii) :
  profit this x type = None <-> type_ok type = false.
Proof.
  unfold profit. destruct (type_ok type).
  - destruct (type =? "c")%char; split; discriminate.
  - tauto.
Qed.

Lemma get_price_None (this : BSMmodel) (type : ascii) :
  get_price this type = None <-> type_ok type = false.
Proof.
  unfold get_price. destruct (type_ok type).
  - destruct (type =? "c")%char; split; discriminate.
  - tauto.
Qed.

Lemma get_price_Some (this : BSMmodel) (type : ascii) :
  type_ok type = true -> exists price, get_price this type = Some price.
Proof.
  intros Hok. destruct (get_price this type) as [price |] eqn:E.
  - now exists price.
  - apply get_price_None in E. congruence.
Qed.

(** C1: the payoff is [max(x - K, 0)] for a call and [max(K - x, 0)] for a
    put, a function of the spot, the strike and the tag alone; on the
    literal inputs: payoff(80, strike 75, call) = 5, payoff(70, strike 75,
    put) = 5 and payoff(75, strike 75, call) = 0. *)
Theorem profit_is_payoff :
  (forall (this : BSMmodel) (x : ld),
      exists v, profit this x "c" = Some v /\ v == Qmax (x - Strike this) 0) /\
  (forall (this : BSMmodel) (x : ld),
      exists v, profit this x "p" = Some v /\ v == Qmax (Strike this - x) 0) /\
  (forall T S rate sigma c p : ld,
      profit (Build_BSMmodel T S 75 rate sigma c p) 80 "c" = Some 5 /\
      profit (Build_BSMmodel T S 75 rate sigma c p) 70 "p" = Some 5 /\
      profit (Build_BSMmodel T S 75 rate sigma c p) 75 "c" = Some 0).
Proof.
  split; [| split].
  - intros this x. exists (std_max 0 (x - Strike this)). split.
    + apply profit_call.
    + apply std_max_Qmax_swap.
  - intros this x. exists (std_max (Strike this - x) 0). split.
    + apply profit_put.
    + apply std_max_Qmax.
  - intros T S rate sigma c p. repeat split.
Qed.

(** C9: call payoff minus put payoff is [x - K], one of the two is zero,
    and neither is negative. *)
Theorem profit_call_put_parity (this : BSMmodel) (x : ld) :
  exists c p : ld,
    profit this x "c" = Some c /\ profit this x "p" = Some p /\
    c - p == x - Strike this /\ Qmin c p == 0 /\ 0 <= c /\ 0 <= p.
Proof.
  exists (std_max 0 (x - Strike this)), (std_max (Strike this - x) 0).
  split; [apply profit_call |]. split; [apply profit_put |].
  unfold std_max.
  destruct (ld_ltb 0 (x - Strike this)) eqn:Ec;
    destruct (ld_ltb (Strike this - x) 0) eqn:Ep;
    try apply ld_ltb_lt in Ec; try apply ld_ltb_ge in Ec;
    try apply ld_ltb_lt in Ep; try apply ld_ltb_ge in Ep.
  - repeat split; try lra. apply Q.min_r. lra.
  - exfalso. lra.
  - exfalso. lra.
  - repeat split; try lra. apply Q.min_l. lra.
Qed.

(** ** The simulation loops *)

Lemma insert_middle (done rest : list ld) (x v : ld) (i : nat) :
  length done = i -> <[i := v]> (done ++ x :: rest) = done ++ v :: rest.
Proof.
  intros <-. rewrite insert_app_r_alt by lia.
  now rewrite Nat.sub_diag.
Qed.

Lemma nth_middle_at (done rest : list ld) (x d : ld) (i : nat) :
  length done = i -> nth i (done ++ x :: rest) d = x.
Proof. intros <-. apply nth_middle. Qed.

(** Sums, averages and running maxima respect [==]. *)

Lemma accumulate_Qeq (v v' : list ld) :
  Forall2 Qeq v v' ->
  forall a a' : ld, a == a' -> accumulate v a == accumulate v' a'.
Proof.
  unfold accumulate. induction 1 as [| x x' v v' Hx _ IH]; intros a a' Ha.
  - exact Ha.
  - simpl. apply IH. now rewrite Hx, Ha.
Qed.

Lemma map_payoff_Qeq (f f' : ld -> ld) (prices : list ld) :
  (forall x, f x == f' x) -> Forall2 Qeq (map f prices) (map f' prices).
Proof.
  intros Hf. induction prices as [| x prices IH]; simpl; constructor; auto.
Qed.

Lemma fold_right_Qmax_Qeq (v : list ld) (b b' : ld) :
  b == b' -> fold_right Qmax b v == fold_right Qmax b' v.
Proof.
  intros Hb. induction v as [| x v IH]; simpl.
  - exact Hb.
  - now rewrite IH.
Qed.

Lemma fold_right_Qmax_init (v : list ld) (a b : ld) :
  fold_right Qmax (Qmax b a) v == Qmax a (fold_right Qmax b v).
Proof.
  induction v as [| x v IH]; simpl.
  - apply Q.max_comm.
  - rewrite IH. rewrite !Q.max_assoc. now rewrite (Q.max_comm x a).
Qed.

(** The running maximum kept by the outer loop is the maximum of the
    values seen and of the value it started from. *)
Lemma running_max (v v' : list ld) :
  Forall2 Qeq v v' ->
  forall b b' : ld, b == b' ->
    fold_left std_max v b == fold_right Qmax b' v'.
Proof.
  induction 1 as [| x x' v v' Hx _ IH]; intros b b' Hb; simpl.
  - exact Hb.
  - rewrite (IH (std_max b x) (Qmax b' x')).
    + apply fold_right_Qmax_init.
    + rewrite std_max_Qmax. now rewrite Hx, Hb.
Qed.

Lemma fold_right_Qmax_ge_init (v : list ld) (b : ld) :
  b <= fold_right Qmax b v.
Proof.
  induction v as [| x v IH]; simpl.
  - lra.
  - apply Q.max_le_iff. now right.
Qed.

Lemma fold_right_Qmax_ge (v : list ld) (b : ld) :
  Forall (fun a => a <= fold_right Qmax b v) v.
Proof.
  induction v as [| x v IH]; simpl; constructor.
  - apply Q.le_max_l.
  - eapply Forall_impl; [exact IH |]. simpl. intros a Ha.
    apply Q.max_le_iff. now right.
Qed.

Section PricerFacts.

Context {G : Type}.
Variable normal_draw : G -> ld -> ld -> ld * G.
Variables ld_exp ld_log ld_sqrt : ld -> ld.

Local Abbreviation path_body :=
  (path_body normal_draw ld_exp ld_log ld_sqrt).
Local Abbreviation path_loop :=
  (path_loop normal_draw ld_exp ld_log ld_sqrt).
Local Abbreviation time_body :=
  (time_body normal_draw ld_exp ld_log ld_sqrt).
Local Abbreviation time_loop :=
  (time_loop normal_draw ld_exp ld_log ld_sqrt).
Local Abbreviation calculatePremiums :=
  (calculatePremiums normal_draw ld_exp ld_log ld_sqrt).
Local Abbreviation gbm_mean := (gbm_mean ld_log).
Local Abbreviation gbm_stddev := (gbm_stddev ld_sqrt).
Local Abbreviation gbm_advance :=
  (gbm_advance normal_draw ld_exp ld_log ld_sqrt).
Local Abbreviation gbm_paths :=
  (gbm_paths normal_draw ld_exp ld_log ld_sqrt).
Local Abbreviation gen_before := (gen_before normal_draw ld_log ld_sqrt).

Lemma gbm_advance_length (rate sigma dt : ld) (prices : list ld) :
  forall g,
    length (fst (gbm_advance rate sigma dt g prices)) = length prices.
Proof.
  induction prices as [| prev rest IH]; intros g; simpl.
  - reflexivity.
  - destruct (normal_draw g _ _) as [draw g1].
    specialize (IH g1).
    destruct (gbm_advance rate sigma dt g1 rest) as [rest' g2].
    simpl in *. now rewrite IH.
Qed.

(** Entry [i] of an advanced price vector is [exp] of the draw made, for
    the old price of path [i], by the generator as the earlier paths of
    the step left it. *)
Lemma gbm_advance_nth (rate sigma dt : ld) (prices : list ld) :
  forall (g : G) (i : nat),
    (i < length prices)%nat ->
    nth i (fst (gbm_advance rate sigma dt g prices)) 0 =
    ld_exp (fst (normal_draw (gen_before rate sigma dt g prices i)
                   (gbm_mean rate sigma dt (nth i prices 0))
                   (gbm_stddev sigma dt))).
Proof.
  induction prices as [| prev rest IH]; intros g i Hi; simpl in Hi.
  - lia.
  - cbn [gbm_advance].
    destruct (normal_draw g (gbm_mean rate sigma dt prev)
                (gbm_stddev sigma dt)) as [draw g1] eqn:E.
    specialize (IH g1).
    destruct (gbm_advance rate sigma dt g1 rest) as [rest' g2].
    destruct i as [| i]; simpl.
    + now rewrite E.
    + rewrite E. simpl. apply IH. lia.
Qed.

(** The inner loop, started at index [i] on vectors whose first [i]
    entries are done: it leaves them alone, replaces the others by the
    advanced prices and their payoffs, and never aborts. *)
Lemma path_loop_spec (this : BSMmodel) (dt : ld) (todo : list ld) :
  forall (i : nat) (done cdone ctodo pdone ptodo : list ld)
         (bc bp : ld) (g : G),
    length done = i -> length cdone = i -> length pdone = i ->
    length ctodo = length todo -> length ptodo = length todo ->
    path_loop this dt (length todo) i
      {| spots := done ++ todo;
         call_profits := cdone ++ ctodo;
         put_profits := pdone ++ ptodo;
         best_call_profit := bc; best_put_profit := bp; gen := g |}
    = Some
      {| spots :=
           done ++ fst (gbm_advance (r this) (Sigma this) dt g todo);
         call_profits :=
           cdone ++ map (fun x => std_max 0 (x - Strike this))
                        (fst (gbm_advance (r this) (Sigma this) dt g todo));
         put_profits :=
           pdone ++ map (fun x => std_max (Strike this - x) 0)
                        (fst (gbm_advance (r this) (Sigma this) dt g todo));
         best_call_profit := bc; best_put_profit := bp;
         gen := snd (gbm_advance (r this) (Sigma this) dt g todo) |}.
Proof.
  induction todo as [| prev rest IH];
    intros i done cdone ctodo pdone ptodo bc bp g Hd Hc Hp Hct Hpt.
  - destruct ctodo; [| discriminate]. destruct ptodo; [| discriminate].
    reflexivity.
  - destruct ctodo as [| c0 ctodo]; [discriminate |].
    destruct ptodo as [| p0 ptodo]; [discriminate |].
    simpl in Hct, Hpt.
    cbn [length path_loop gbm_advance].
    unfold path_body.
    cbn [spots call_profits put_profits gen
         best_call_profit best_put_profit].
    rewrite (nth_middle_at done rest prev 0 i Hd).
    fold (gbm_mean (r this) (Sigma this) dt prev).
    fold (gbm_stddev (Sigma this) dt).
    destruct (normal_draw g (gbm_mean (r this) (Sigma this) dt prev)
                (gbm_stddev (Sigma this) dt)) as [draw g1].
    rewrite (insert_middle done rest prev (ld_exp draw) i Hd).
    rewrite (nth_middle_at done rest (ld_exp draw) 0 i Hd).
    rewrite profit_call, profit_put. cbn [mbind option_bind].
    rewrite (insert_middle cdone ctodo c0 _ i Hc).
    rewrite (insert_middle pdone ptodo p0 _ i Hp).
    specialize (IH (S i) (done ++ [ld_exp draw])
                  (cdone ++ [std_max 0 (ld_exp draw - Strike this)]) ctodo
                  (pdone ++ [std_max (Strike this - ld_exp draw) 0]) ptodo
                  bc bp g1).
    rewrite <- !app_assoc in IH. cbn [app] in IH.
    rewrite IH by (rewrite ?length_app; simpl; lia).
    destruct (gbm_advance (r this) (Sigma this) dt g1 rest)
      as [rest' g2].
    reflexivity.
Qed.

(** One time step: the prices advance, the payoff vectors are those of
    the new prices, and the best averages take the step's averages in. *)
Lemma time_body_spec (this : BSMmodel) (dt : ld) (simulations_num : Z)
    (st : sim) :
  sim_sized (Z.to_nat simulations_num) st ->
  let adv := gbm_advance (r this) (Sigma this) dt (gen st) (spots st) in
  time_body this dt simulations_num st
  = Some
    {| spots := fst adv;
       call_profits := map (fun x => std_max 0 (x - Strike this)) (fst adv);
       put_profits := map (fun x => std_max (Strike this - x) 0) (fst adv);
       best_call_profit :=
         std_max (best_call_profit st)
           (average_payoff (fun x => std_max 0 (x - Strike this))
              simulations_num (fst adv));
       best_put_profit :=
         std_max (best_put_profit st)
           (average_payoff (fun x => std_max (Strike this - x) 0)
              simulations_num (fst adv));
       gen := snd adv |}.
Proof.
  intros (Hs & Hc & Hp) adv. subst adv. unfold time_body.
  destruct st as [sp cp pp bc bp g]. simpl in Hs, Hc, Hp |- *.
  rewrite <- Hs.
  pose proof (path_loop_spec this dt sp 0%nat [] [] cp [] pp bc bp g)
    as Hloop.
  cbn [app] in Hloop.
  rewrite Hloop by (simpl; congruence).
  reflexivity.
Qed.

Lemma time_body_sized (this : BSMmodel) (dt : ld) (simulations_num : Z)
    (st st' : sim) :
  sim_sized (Z.to_nat simulations_num) st ->
  time_body this dt simulations_num st = Some st' ->
  sim_sized (Z.to_nat simulations_num) st'.
Proof.
  intros Hsz Hst. rewrite (time_body_spec this dt _ st Hsz) in Hst.
  injection Hst as <-. destruct Hsz as (Hs & _).
  unfold sim_sized. simpl.
  rewrite !length_map, !gbm_advance_length. auto.
Qed.

(** The outer loop: it never aborts, and the best averages it ends with
    are the running maxima over the steps it made. *)
Lemma time_loop_spec (this : BSMmodel) (dt : ld) (simulations_num : Z)
    (steps : nat) :
  forall st : sim,
    sim_sized (Z.to_nat simulations_num) st ->
    exists st' : sim,
      time_loop this dt simulations_num steps st = Some st' /\
      sim_sized (Z.to_nat simulations_num) st' /\
      best_call_profit st' =
        fold_left std_max
          (map (average_payoff (fun x => std_max 0 (x - Strike this))
                  simulations_num)
             (gbm_paths (r this) (Sigma this) dt steps (gen st) (spots st)))
          (best_call_profit st) /\
      best_put_profit st' =
        fold_left std_max
          (map (average_payoff (fun x => std_max (Strike this - x) 0)
                  simulations_num)
             (gbm_paths (r this) (Sigma this) dt steps (gen st) (spots st)))
          (best_put_profit st).
Proof.
  induction steps as [| steps IH]; intros st Hsz.
  - exists st. repeat split; try apply Hsz.
  - cbn [time_loop gbm_paths].
    pose proof (time_body_spec this dt simulations_num st Hsz) as Hb.
    cbv zeta in Hb.
    pose proof (time_body_sized this dt simulations_num st _ Hsz Hb) as Hsz'.
    rewrite Hb. cbn [mbind option_bind].
    destruct (IH _ Hsz') as (st' & Hrun & Hsz'' & Hcall & Hput).
    exists st'. split; [exact Hrun |]. split; [exact Hsz'' |].
    cbn [spots gen best_call_profit best_put_profit] in Hcall, Hput.
    destruct (gbm_advance (r this) (Sigma this) dt (gen st) (spots st))
      as [prices' g'].
    split; [exact Hcall | exact Hput].
Qed.

(** Running one more step is running the body once more at the end. *)
Lemma time_loop_snoc (this : BSMmodel) (dt : ld) (simulations_num : Z)
    (steps : nat) :
  forall st : sim,
    time_loop this dt simulations_num (S steps) st =
    st' ← time_loop this dt simulations_num steps st;
    time_body this dt simulations_num st'.
Proof.
  induction steps as [| steps IH]; intros st.
  - simpl. now destruct (time_body this dt simulations_num st).
  - change (time_loop this dt simulations_num (S (S steps)) st)
      with (st1 ← time_body this dt simulations_num st;
            time_loop this dt simulations_num (S steps) st1).
    cbn [time_loop].
    destruct (time_body this dt simulations_num st) as [st1 |]; simpl.
    + apply IH.
    + reflexivity.
Qed.

Lemma sim_init_sized (seed : G) (this : BSMmodel) (simulations_num : Z) :
  sim_sized (Z.to_nat simulations_num) (sim_init seed this simulations_num).
Proof. unfold sim_sized, sim_init. simpl. now rewrite !length_replicate. Qed.

Lemma calculatePremiums_unfold (seed : G) (this : BSMmodel)
    (simulations_num time_nums : Z) :
  calculatePremiums seed this simulations_num time_nums =
  st ← time_loop this (Time this / inject_Z time_nums) simulations_num
         (Z.to_nat time_nums) (sim_init seed this simulations_num);
  Some {| Time := Time this; Spot := Spot this; Strike := Strike this;
          r := r this; Sigma := Sigma this;
          call := best_call_profit st; put := best_put_profit st |}.
Proof. reflexivity. Qed.

(** [calculatePremiums] never aborts, keeps the contract parameters, and
    stores the best step averages of the two payoffs. *)
Lemma calculatePremiums_spec (seed : G) (this : BSMmodel)
    (simulations_num time_nums : Z) :
  let paths :=
    gbm_paths (r this) (Sigma this) (Time this / inject_Z time_nums)
      (Z.to_nat time_nums) seed
      (replicate (Z.to_nat simulations_num) (Spot this)) in
  exists model : BSMmodel,
    calculatePremiums seed this simulations_num time_nums = Some model /\
    call model ==
      best_average (call_payoff (Strike this)) simulations_num paths /\
    put model ==
      best_average (put_payoff (Strike this)) simulations_num paths.
Proof.
  intros paths. rewrite calculatePremiums_unfold.
  destruct (time_loop_spec this (Time this / inject_Z time_nums)
              simulations_num (Z.to_nat time_nums)
              (sim_init seed this simulations_num)
              (sim_init_sized seed this simulations_num))
    as (st & Hrun & _ & Hcall & Hput).
  rewrite Hrun. cbn [mbind option_bind]. eexists. split; [reflexivity |].
  cbn [call put]. rewrite Hcall, Hput. cbn [sim_init spots gen
    best_call_profit best_put_profit]. fold paths.
  unfold best_average.
  split; apply running_max; try reflexivity.
  - induction paths as [| prices paths' IH]; simpl; constructor; auto.
    unfold average_payoff. apply Qmult_comp; [| reflexivity].
    apply accumulate_Qeq; [| reflexivity]. apply map_payoff_Qeq.
    intros x. apply std_max_Qmax_swap.
  - induction paths as [| prices paths' IH]; simpl; constructor; auto.
    unfold average_payoff. apply Qmult_comp; [| reflexivity].
    apply accumulate_Qeq; [| reflexivity]. apply map_payoff_Qeq.
    intros x. apply std_max_Qmax.
Qed.

Lemma best_average_nonneg (payoff : ld -> ld) (simulations_num : Z)
    (paths : list (list ld)) :
  0 <= best_average payoff simulations_num paths.
Proof. unfold best_average. apply fold_right_Qmax_ge_init. Qed.

(** The premiums stored are not negative. *)
Lemma calculatePremiums_nonneg (seed : G) (this model : BSMmodel)
    (simulations_num time_nums : Z) :
  calculatePremiums seed this simulations_num time_nums = Some model ->
  0 <= call model /\ 0 <= put model.
Proof.
  destruct (calculatePremiums_spec seed this simulations_num time_nums)
    as (model' & -> & Hcall & Hput).
  intros [= <-]. rewrite Hcall, Hput. split; apply best_average_nonneg.
Qed.

End PricerFacts.

(** C6: the premiums that the pricer stores, and that [get_price] returns,
    are the maxima over the time steps, the value 0 of step 0 included, of
    the cross-path average payoffs: for [calculatePremiums] on any numbers
    of paths and steps, and for the constructor with its 10000 paths and 100
    steps.  No factor discounts them, and on the scripted run below the call
    premium differs from the average of the terminal step. *)
Theorem premium_is_best_step_average :
  (forall (G : Type) (normal_draw : G -> ld -> ld -> ld * G)
          (ld_exp ld_log ld_sqrt : ld -> ld)
          (seed : G) (this : BSMmodel) (simulations_num time_nums : Z),
      exists model : BSMmodel,
        calculatePremiums normal_draw ld_exp ld_log ld_sqrt
          seed this simulations_num time_nums = Some model /\
        get_price model "c" = Some (call model) /\
        get_price model "p" = Some (put model) /\
        call model ==
          best_average (call_payoff (Strike this)) simulations_num
            (gbm_paths normal_draw ld_exp ld_log ld_sqrt
               (r this) (Sigma this) (Time this / inject_Z time_nums)
               (Z.to_nat time_nums) seed
               (replicate (Z.to_nat simulations_num) (Spot this))) /\
        put model ==
          best_average (put_payoff (Strike this)) simulations_num
            (gbm_paths normal_draw ld_exp ld_log ld_sqrt
               (r this) (Sigma this) (Time this / inject_Z time_nums)
               (Z.to_nat time_nums) seed
               (replicate (Z.to_nat simulations_num) (Spot this)))) /\
  (forall (G : Type) (normal_draw : G -> ld -> ld -> ld * G)
          (ld_exp ld_log ld_sqrt : ld -> ld)
          (seed : G) (_Time _Spot _Strike _r _Sigma : ld),
      exists model : BSMmodel,
        BSMmodel_new normal_draw ld_exp ld_log ld_sqrt
          seed _Time _Spot _Strike _r _Sigma = Some model /\
        get_price model "c" = Some (call model) /\
        get_price model "p" = Some (put model) /\
        call model ==
          best_average (call_payoff _Strike) 10000
            (gbm_paths normal_draw ld_exp ld_log ld_sqrt
               _r _Sigma (_Time / inject_Z 100) (Z.to_nat 100) seed
               (replicate (Z.to_nat 10000) _Spot)) /\
        put model ==
          best_average (put_payoff _Strike) 10000
            (gbm_paths normal_draw ld_exp ld_log ld_sqrt
               _r _Sigma (_Time / inject_Z 100) (Z.to_nat 100) seed
               (replicate (Z.to_nat 10000) _Spot))) /\
  (exists model : BSMmodel,
     calculatePremiums scripted_draw (fun x => x) (fun x => x) (fun x => x)
       sample_draws sample_contract 2 2 = Some model /\
     gbm_paths scripted_draw (fun x => x) (fun x => x) (fun x => x)
       (r sample_contract) (Sigma sample_contract)
       (Time sample_contract / inject_Z 2) 2 sample_draws
       (replicate 2 (Spot sample_contract)) = [[80; 70]; [74; 72]] /\
     call model == 5 # 2 /\
     average_payoff (call_payoff (Strike sample_contract)) 2 [74; 72] == 0).
Proof.
  split; [| split].
  - intros G normal_draw ld_exp ld_log ld_sqrt seed this N M.
    destruct (calculatePremiums_spec normal_draw ld_exp ld_log ld_sqrt
                seed this N M) as (model & Hrun & Hcall & Hput).
    exists model. repeat split; assumption.
  - intros G normal_draw ld_exp ld_log ld_sqrt seed T S K rate sigma.
    unfold BSMmodel_new.
    destruct (calculatePremiums_spec normal_draw ld_exp ld_log ld_sqrt seed
                {| Time := T; Spot := S; Strike := K; r := rate;
                   Sigma := sigma; call := 0; put := 0 |} 10000 100)
      as (model & Hrun & Hcall & Hput).
    exists model. repeat split; assumption.
  - eexists. split; [vm_compute; reflexivity |].
    split; [vm_compute; reflexivity |]. split; reflexivity.
Qed.

(** C8: in the time step that follows step [t], the new price of every path
    [i] is [exp] of a value drawn from the normal distribution with mean
    [log prev_price + (r - Sigma^2 / 2) dt] and standard deviation
    [Sigma sqrt dt], where [dt = Time / time_nums] and [prev_price] is the
    price of path [i] after step [t]; the draw is made by the generator as
    the draws of the paths before [i] left it. *)
Theorem path_price_is_exp_of_normal_draw
    (G : Type) (normal_draw : G -> ld -> ld -> ld * G)
    (ld_exp ld_log ld_sqrt : ld -> ld)
    (seed : G) (this : BSMmodel) (simulations_num time_nums : Z)
    (t i : nat) :
  (i < Z.to_nat simulations_num)%nat ->
  let dt := Time this / inject_Z time_nums in
  exists st st' : sim,
    time_loop normal_draw ld_exp ld_log ld_sqrt this dt simulations_num t
      (sim_init seed this simulations_num) = Some st /\
    time_body normal_draw ld_exp ld_log ld_sqrt this dt simulations_num st
      = Some st' /\
    time_loop normal_draw ld_exp ld_log ld_sqrt this dt simulations_num (S t)
      (sim_init seed this simulations_num) = Some st' /\
    nth i (spots st') 0 =
      ld_exp
        (fst (normal_draw
                (gen_before normal_draw ld_log ld_sqrt
                   (r this) (Sigma this) dt (gen st) (spots st) i)
                (ld_log (nth i (spots st) 0)
                 + (r this - Sigma this * Sigma this / 2) * dt)
                (Sigma this * ld_sqrt dt))).
Proof.
  intros Hi dt.
  destruct (time_loop_spec normal_draw ld_exp ld_log ld_sqrt this dt
              simulations_num t (sim_init seed this simulations_num)
              (sim_init_sized seed this simulations_num))
    as (st & Hrun & Hsz & _).
  pose proof (time_body_spec normal_draw ld_exp ld_log ld_sqrt this dt
                simulations_num st Hsz) as Hbody.
  cbv zeta in Hbody.
  exists st. eexists. split; [exact Hrun |]. split; [exact Hbody |].
  split.
  - rewrite time_loop_snoc, Hrun. exact Hbody.
  - cbn [spots]. destruct Hsz as (Hs & _).
    rewrite gbm_advance_nth by lia. reflexivity.
Qed.

Lemma path_price_is_exp_of_normal_draw_witness :
  (1 < Z.to_nat 2)%nat /\
  exists st st' : sim,
    time_loop scripted_draw (fun x => x) (fun x => x) (fun x => x)
      sample_contract (Time sample_contract / inject_Z 2) 2 1
      (sim_init sample_draws sample_contract 2) = Some st /\
    time_body scripted_draw (fun x => x) (fun x => x) (fun x => x)
      sample_contract (Time sample_contract / inject_Z 2) 2 st = Some st' /\
    time_loop scripted_draw (fun x => x) (fun x => x) (fun x => x)
      sample_contract (Time sample_contract / inject_Z 2) 2 2
      (sim_init sample_draws sample_contract 2) = Some st' /\
    nth 1 (spots st') 0 =
      fst (scripted_draw
             (gen_before scripted_draw (fun x => x) (fun x => x)
                (r sample_contract) (Sigma sample_contract)
                (Time sample_contract / inject_Z 2) (gen st) (spots st) 1)
             (nth 1 (spots st) 0
              + (r sample_contract
                 - Sigma sample_contract * Sigma sample_contract / 2)
                * (Time sample_contract / inject_Z 2))
             (Sigma sample_contract * (Time sample_contract / inject_Z 2))).
Proof.
  split.
  - vm_compute. lia.
  - apply (path_price_is_exp_of_normal_draw (list ld) scripted_draw
             (fun x => x) (fun x => x) (fun x => x)
             sample_draws sample_contract 2 2 1%nat 1%nat).
    vm_compute. lia.
Defined.

(** ** The bisection loop *)

Lemma half_is_mult (x : ld) : x / 2 == x * (1 # 2).
Proof. unfold Qdiv. apply Qmult_comp; reflexivity. Qed.

Lemma mid_vol_between (b : bracket) :
  low_vol b <= high_vol b ->
  low_vol b <= mid_vol b /\ mid_vol b <= high_vol b.
Proof.
  intros Hle. unfold mid_vol. rewrite half_is_mult. split; lra.
Qed.

Lemma width_upper_half (b : bracket) :
  width {| low_vol := mid_vol b; high_vol := high_vol b |} == width b / 2.
Proof. unfold width, mid_vol. simpl. field. Qed.

Lemma width_lower_half (b : bracket) :
  width {| low_vol := low_vol b; high_vol := mid_vol b |} == width b / 2.
Proof. unfold width, mid_vol. simpl. field. Qed.

Lemma pow2_pos (k : nat) : 0 < inject_Z (2 ^ Z.of_nat k).
Proof.
  change 0 with (inject_Z 0). rewrite <- Zlt_Qlt.
  apply Z.pow_pos_nonneg; lia.
Qed.

Lemma pow2_succ (k : nat) :
  inject_Z (2 ^ Z.of_nat (S k)) == 2 * inject_Z (2 ^ Z.of_nat k).
Proof.
  rewrite Nat2Z.inj_succ, Z.pow_succ_r by lia.
  now rewrite inject_Z_mult.
Qed.

Section SolverFacts.

Context {G : Type}.
Variable normal_draw : G -> ld -> ld -> ld * G.
Variables ld_exp ld_log ld_sqrt : ld -> ld.
Variables (Time Spot Strike r : ld) (type : ascii) (Premium tol : ld).
Variable rd : nat -> G.

Local Abbreviation BSMmodel_new :=
  (BSMmodel_new normal_draw ld_exp ld_log ld_sqrt).
Local Abbreviation loop_body :=
  (loop_body normal_draw ld_exp ld_log ld_sqrt
     Time Spot Strike r type Premium).
Local Abbreviation bisect :=
  (bisect normal_draw ld_exp ld_log ld_sqrt
     Time Spot Strike r type Premium tol rd).
Local Abbreviation calculateImpliedVolatility :=
  (calculateImpliedVolatility normal_draw ld_exp ld_log ld_sqrt
     Time Spot Strike r type Premium tol rd).
Local Abbreviation reachable :=
  (reachable normal_draw ld_exp ld_log ld_sqrt
     Time Spot Strike r type Premium tol rd).

Lemma BSMmodel_new_Some (seed : G) (_Time _Spot _Strike _r _Sigma : ld) :
  exists model : BSMmodel,
    BSMmodel_new seed _Time _Spot _Strike _r _Sigma = Some model.
Proof.
  unfold BSMmodel_new.
  destruct (calculatePremiums_spec normal_draw ld_exp ld_log ld_sqrt seed
              (Build_BSMmodel _Time _Spot _Strike _r _Sigma 0 0)
              10000 100)
    as (model & Hrun & _).
  now exists model.
Qed.

(** What the body does, by cases on the premium of the model at
    [mid_vol]. *)
Lemma loop_body_cases (seed : G) (b : bracket) :
  type_ok type = true ->
  exists (model : BSMmodel) (price : ld),
    BSMmodel_new seed Time Spot Strike r (mid_vol b) = Some model /\
    get_price model type = Some price /\
    (Premium < price ->
     loop_body seed b
     = Continue {| low_vol := low_vol b; high_vol := mid_vol b |}) /\
    (price < Premium ->
     loop_body seed b
     = Continue {| low_vol := mid_vol b; high_vol := high_vol b |}) /\
    (price == Premium -> loop_body seed b = Return (mid_vol b)).
Proof.
  intros Hok.
  destruct (BSMmodel_new_Some seed Time Spot Strike r (mid_vol b))
    as (model & Hnew).
  destruct (get_price_Some model type Hok) as (price & Hprice).
  exists model, price. split; [exact Hnew |]. split; [exact Hprice |].
  unfold loop_body. fold (mid_vol b). rewrite Hnew, Hprice.
  destruct (ld_ltb Premium price) eqn:Egt;
    destruct (ld_ltb price Premium) eqn:Elt;
    try apply ld_ltb_lt in Egt; try apply ld_ltb_ge in Egt;
    try apply ld_ltb_lt in Elt; try apply ld_ltb_ge in Elt;
    repeat split; intros H; try reflexivity; exfalso; lra.
Qed.

Lemma loop_body_Continue (seed : G) (b b' : bracket) :
  loop_body seed b = Continue b' ->
  b' = {| low_vol := low_vol b; high_vol := mid_vol b |} \/
  b' = {| low_vol := mid_vol b; high_vol := high_vol b |}.
Proof.
  unfold loop_body. fold (mid_vol b).
  destruct (BSMmodel_new seed Time Spot Strike r (mid_vol b))
    as [model |]; [| discriminate].
  destruct (get_price model type) as [price |]; [| discriminate].
  destruct (ld_ltb Premium price); [intros [= <-]; now left |].
  destruct (ld_ltb price Premium); [intros [= <-]; now right |].
  discriminate.
Qed.

Lemma loop_body_Return (seed : G) (b : bracket) (v : ld) :
  loop_body seed b = Return v -> v = mid_vol b.
Proof.
  unfold loop_body. fold (mid_vol b).
  destruct (BSMmodel_new seed Time Spot Strike r (mid_vol b))
    as [model |]; [| discriminate].
  destruct (get_price model type) as [price |]; [| discriminate].
  destruct (ld_ltb Premium price); [discriminate |].
  destruct (ld_ltb price Premium); [discriminate |].
  now intros [= <-].
Qed.

Lemma loop_body_Abort (seed : G) (b : bracket) :
  loop_body seed b = Abort -> type_ok type = false.
Proof.
  unfold loop_body. fold (mid_vol b).
  destruct (BSMmodel_new_Some seed Time Spot Strike r (mid_vol b))
    as (model & ->).
  destruct (get_price model type) as [price |] eqn:Hprice.
  - destruct (ld_ltb Premium price); [discriminate |].
    destruct (ld_ltb price Premium); discriminate.
  - intros _. now apply get_price_None in Hprice.
Qed.

(** An update keeps [low_vol <= high_vol] and halves the width. *)
Lemma loop_body_halves (seed : G) (b b' : bracket) :
  low_vol b <= high_vol b ->
  loop_body seed b = Continue b' ->
  low_vol b' <= high_vol b' /\ width b' == width b / 2 /\
  low_vol b <= low_vol b' /\ high_vol b' <= high_vol b.
Proof.
  intros Hle Hstep. destruct (mid_vol_between b Hle) as (Hlo & Hhi).
  destruct (loop_body_Continue seed b b' Hstep) as [-> | ->]; simpl.
  - split; [exact Hlo |]. split; [apply width_lower_half |].
    split; [lra | exact Hhi].
  - split; [exact Hhi |]. split; [apply width_upper_half |].
    split; [exact Hlo | lra].
Qed.

(** The invariant of the loop: the bracket is ordered, lies within the
    initial one, and its width is the initial width over [2^k]. *)
Lemma reachable_inv (k : nat) (b : bracket) :
  reachable k b ->
  low_vol b <= high_vol b /\
  low_vol initial_bracket <= low_vol b /\
  high_vol b <= high_vol initial_bracket /\
  width b * inject_Z (2 ^ Z.of_nat k) == width initial_bracket.
Proof.
  induction 1 as [| k b b' Hreach (Hle & Hlo & Hhi & Hw) Hcond Hstep].
  - repeat split; try reflexivity; unfold initial_bracket; simpl; lra.
  - destruct (loop_body_halves (rd k) b b' Hle Hstep)
      as (Hle' & Hw' & Hlo' & Hhi').
    repeat split; try lra.
    rewrite pow2_succ, Hw', half_is_mult, <- Hw. ring.
Qed.

Lemma bisect_reachable (k : nat) (b : bracket) :
  reachable k b ->
  forall fuel : nat, calculateImpliedVolatility (k + fuel) = bisect fuel k b.
Proof.
  unfold calculateImpliedVolatility.
  induction 1 as [| k b b' Hreach IH Hcond Hstep]; intros fuel.
  - reflexivity.
  - replace (S k + fuel)%nat with (k + S fuel)%nat by lia.
    rewrite IH. cbn [bisect]. now rewrite Hcond, Hstep.
Qed.

(** An iteration that is executed has an index below the bound. *)
Lemma reachable_index_bound (k : nat) (b : bracket) :
  0 < tol -> reachable k b -> tol < width b ->
  (k < iter_bound initial_bracket tol)%nat.
Proof.
  intros Htol Hreach Hw.
  destruct (reachable_inv k b Hreach) as (_ & _ & _ & Hinv).
  pose proof (pow2_pos k) as Hpow.
  assert (Hlt : inject_Z (2 ^ Z.of_nat k) < width initial_bracket / tol).
  { apply Qlt_shift_div_l; [exact Htol |]. rewrite <- Hinv. nra. }
  pose proof (Qle_ceiling (width initial_bracket / tol)) as Hceil.
  assert (Hz : (2 ^ Z.of_nat k
                < Qceiling (width initial_bracket / tol))%Z).
  { rewrite Zlt_Qlt. lra. }
  assert (Hpos : (0 < Qceiling (width initial_bracket / tol))%Z).
  { pose proof (Z.pow_pos_nonneg 2 (Z.of_nat k)). lia. }
  apply Z.log2_up_lt_pow2 in Hz; [| exact Hpos].
  unfold iter_bound. fold (width initial_bracket). lia.
Qed.

(** With fuel up to the bound the loop does not run out of it. *)
Lemma bisect_within_bound (fuel : nat) :
  forall (k : nat) (b : bracket),
    0 < tol -> reachable k b ->
    (iter_bound initial_bracket tol <= k + fuel)%nat ->
    bisect fuel k b <> OutOfFuel.
Proof.
  induction fuel as [| fuel IH]; intros k b Htol Hreach Hfuel;
    cbn [bisect]; fold (width b);
    destruct (ld_ltb tol (width b)) eqn:Hcond; try discriminate.
  - apply ld_ltb_lt in Hcond.
    pose proof (reachable_index_bound k b Htol Hreach Hcond). lia.
  - destruct (loop_body (rd k) b) as [b' | v |] eqn:Hstep;
      try discriminate.
    apply IH; [exact Htol | | lia].
    now apply (reach_step _ _ _ _ _ _ _ _ _ _ _ _ k b b').
Qed.

Lemma bisect_Aborted (fuel : nat) :
  forall (k : nat) (b : bracket),
    bisect fuel k b = Aborted -> type_ok type = false.
Proof.
  induction fuel as [| fuel IH]; intros k b; cbn [bisect];
    destruct (ld_ltb tol (high_vol b - low_vol b)); try discriminate.
  destruct (loop_body (rd k) b) as [b' | v |] eqn:Hstep;
    try discriminate.
  - apply IH.
  - intros _. exact (loop_body_Abort _ _ Hstep).
Qed.

(** Whatever the loop returns lies in the initial bracket. *)
Lemma bisect_Done_bounds (fuel : nat) :
  forall (k : nat) (b : bracket) (v : ld),
    reachable k b -> bisect fuel k b = Done v ->
    low_vol initial_bracket <= v /\ v <= high_vol initial_bracket.
Proof.
  assert (Hexit : forall k b v, reachable k b -> Done (low_vol b) = Done v ->
                    low_vol initial_bracket <= v /\
                    v <= high_vol initial_bracket).
  { intros k b v Hreach [= <-].
    destruct (reachable_inv k b Hreach) as (Hle & Hlo & Hhi & _).
    split; lra. }
  induction fuel as [| fuel IH]; intros k b v Hreach; cbn [bisect];
    destruct (ld_ltb tol (high_vol b - low_vol b)) eqn:Hcond;
    try discriminate; try (now apply (Hexit k)).
  destruct (loop_body (rd k) b) as [b' | v' |] eqn:Hstep;
    try discriminate.
  - apply IH. now apply (reach_step _ _ _ _ _ _ _ _ _ _ _ _ k b b').
  - intros [= <-]. apply loop_body_Return in Hstep. subst v'.
    destruct (reachable_inv k b Hreach) as (Hle & Hlo & Hhi & _).
    destruct (mid_vol_between b Hle). split; lra.
Qed.

(** Against a negative observed premium every model is too dear, and
    the body takes the lower half. *)
Lemma loop_body_negative_premium (seed : G) (b : bracket) :
  Premium < 0 -> type_ok type = true ->
  loop_body seed b
  = Continue {| low_vol := low_vol b; high_vol := mid_vol b |}.
Proof.
  intros Hneg Hok.
  destruct (loop_body_cases seed b Hok)
    as (model & price & Hnew & Hprice & Hgt & _).
  apply Hgt.
  apply calculatePremiums_nonneg in Hnew. destruct Hnew as (Hc & Hp).
  unfold get_price in Hprice. rewrite Hok in Hprice.
  destruct (type =? "c")%char; injection Hprice as <-; simpl in *; lra.
Qed.

(** With a tolerance that is not positive as well, no fuel lets the loop
    end: the width halves and stays positive. *)
Lemma bisect_nonpositive_tolerance (fuel : nat) :
  forall (k : nat) (b : bracket),
    tol <= 0 -> Premium < 0 -> type_ok type = true ->
    low_vol b < high_vol b ->
    bisect fuel k b = OutOfFuel.
Proof.
  induction fuel as [| fuel IH]; intros k b Htol Hneg Hok Hlt;
    cbn [bisect];
    assert (Hcond : ld_ltb tol (high_vol b - low_vol b) = true)
      by (apply ld_ltb_lt; lra);
    rewrite Hcond.
  - reflexivity.
  - rewrite (loop_body_negative_premium (rd k) b Hneg Hok).
    apply IH; try assumption. simpl.
    unfold mid_vol. rewrite half_is_mult. lra.
Qed.

(** In exact arithmetic, for a positive tolerance, and whatever the
    premiums that the models return, the loop ends within
    [ceil(log2((high0 - low0) / tol))] executions of its body: an
    execution number [k] (from 0) is below that bound, and that much fuel
    is enough for the run to end.  For the bracket [0.03, 6] and the
    tolerance [1e-5] the bound is 20. *)
Theorem bisection_terminates_within_bound :
  0 < tol ->
  (forall (k : nat) (b : bracket),
      reachable k b -> tol < width b ->
      (k < iter_bound initial_bracket tol)%nat) /\
  (forall fuel : nat,
      (iter_bound initial_bracket tol <= fuel)%nat ->
      calculateImpliedVolatility fuel <> OutOfFuel) /\
  iter_bound initial_bracket default_tol = 20%nat.
Proof.
  intros Htol. split; [| split].
  - intros k b Hreach Hw. now apply (reachable_index_bound k b).
  - intros fuel Hfuel. unfold calculateImpliedVolatility.
    apply bisect_within_bound; [exact Htol | constructor | lia].
  - reflexivity.
Qed.


(** C4: in an iteration, with [price] the premium of the model built at
    [mid_vol] for the requested type: [price > Premium] sets
    [high_vol = mid_vol], [price < Premium] sets [low_vol = mid_vol], and
    [price == Premium] returns [mid_vol]. *)
Theorem bisection_step_by_comparison (seed : G) (b : bracket) :
  type_ok type = true ->
  exists (model : BSMmodel) (price : ld),
    BSMmodel_new seed Time Spot Strike r (mid_vol b) = Some model /\
    get_price model type = Some price /\
    (Premium < price ->
     loop_body seed b
     = Continue {| low_vol := low_vol b; high_vol := mid_vol b |}) /\
    (price < Premium ->
     loop_body seed b
     = Continue {| low_vol := mid_vol b; high_vol := high_vol b |}) /\
    (price == Premium -> loop_body seed b = Return (mid_vol b)).
Proof. apply loop_body_cases. Qed.

(** C5: when the loop reaches a bracket of width at most [tol], the
    function returns the lower endpoint of that bracket. *)
Theorem returns_low_at_exit (k fuel : nat) (b : bracket) :
  reachable k b -> width b <= tol ->
  calculateImpliedVolatility (k + fuel) = Done (low_vol b).
Proof.
  intros Hreach Hw. rewrite (bisect_reachable k b Hreach).
  assert (Hcond : ld_ltb tol (high_vol b - low_vol b) = false)
    by now apply ld_ltb_ge.
  destruct fuel; cbn [bisect]; now rewrite Hcond.
Qed.

(** C10: for a positive tolerance, whatever the other arguments and the
    draws, a volatility that the function returns lies in the initial
    bracket [0.03, 6]; and with a tag that passes the assertion the
    function does return one. *)
Theorem implied_volatility_in_initial_bracket (fuel : nat) :
  0 < tol ->
  (iter_bound initial_bracket tol <= fuel)%nat ->
  (forall v : ld,
      calculateImpliedVolatility fuel = Done v ->
      3 # 100 <= v /\ v <= 6) /\
  (type_ok type = true ->
   exists v : ld,
     calculateImpliedVolatility fuel = Done v /\ 3 # 100 <= v /\ v <= 6).
Proof.
  intros Htol Hfuel. unfold calculateImpliedVolatility.
  assert (Hin : forall v : ld,
             bisect fuel 0 initial_bracket = Done v ->
             3 # 100 <= v /\ v <= 6).
  { intros v Hrun.
    exact (bisect_Done_bounds fuel 0%nat initial_bracket v
             (reach_init _ _ _ _ _ _ _ _ _ _ _ _) Hrun). }
  split; [exact Hin |]. intros Hok.
  destruct (bisect fuel 0 initial_bracket) as [v | |] eqn:Hrun.
  - exists v. split; [reflexivity | now apply Hin].
  - apply bisect_Aborted in Hrun. congruence.
  - exfalso. revert Hrun.
    apply bisect_within_bound; [exact Htol | constructor | lia].
Qed.

End SolverFacts.

(** [iter_bound] is the least number [n] of halvings that bring the width
    down to the tolerance. *)
Lemma iter_bound_spec (b : bracket) (tol : ld) :
  0 < tol ->
  width b <= tol * inject_Z (2 ^ Z.of_nat (iter_bound b tol)) /\
  (forall n : nat,
      width b <= tol * inject_Z (2 ^ Z.of_nat n) ->
      (iter_bound b tol <= n)%nat).
Proof.
  intros Htol. unfold iter_bound. fold (width b).
  set (c := Qceiling (width b / tol)).
  pose proof (Qle_ceiling (width b / tol)) as Hceil. fold c in Hceil.
  pose proof (Z.log2_up_nonneg c) as Hnn.
  split.
  - rewrite Z2Nat.id by exact Hnn.
    assert (Hc : (c <= 2 ^ Z.log2_up c)%Z).
    { destruct (Z_lt_le_dec 0 c) as [Hpos | Hneg].
      - apply Z.log2_log2_up_spec. exact Hpos.
      - pose proof (Z.pow_pos_nonneg 2 (Z.log2_up c)). lia. }
    rewrite Zle_Qle in Hc.
    assert (Hdiv : width b / tol <= inject_Z (2 ^ Z.log2_up c)) by lra.
    assert (Hw : width b == tol * (width b / tol)).
    { symmetry. apply Qmult_div_r. lra. }
    rewrite Hw at 1. apply Qmult_le_l; [exact Htol | exact Hdiv].
  - intros n Hn.
    assert (Hdiv : width b / tol <= inject_Z (2 ^ Z.of_nat n)).
    { apply Qle_shift_div_r; [exact Htol | lra]. }
    apply Qceiling_resp_le in Hdiv. rewrite Qceiling_Z in Hdiv. fold c in Hdiv.
    destruct (Z_lt_le_dec 0 c) as [Hpos | Hneg].
    + apply Z.log2_up_le_pow2 in Hdiv; [lia | exact Hpos].
    + rewrite Z.log2_up_nonpos by exact Hneg. simpl. lia.
Qed.

(** C7: the assertion on the tag is the only check.  [profit] and
    [get_price] abort exactly on the tags other than ['c'] and ['p'], so
    with one of these two tags the abort is not reached; constructing a
    [BSMmodel] never aborts, and the solver aborts on no other ground. *)
Theorem option_type_assertion :
  (forall (this : BSMmodel) (x : ld) (type : ascii),
      profit this x type = None <-> type <> "c"%char /\ type <> "p"%char) /\
  (forall (this : BSMmodel) (type : ascii),
      get_price this type = None <-> type <> "c"%char /\ type <> "p"%char) /\
  (forall (G : Type) (normal_draw : G -> ld -> ld -> ld * G)
          (ld_exp ld_log ld_sqrt : ld -> ld)
          (seed : G) (_Time _Spot _Strike _r _Sigma : ld),
      BSMmodel_new normal_draw ld_exp ld_log ld_sqrt
        seed _Time _Spot _Strike _r _Sigma <> None) /\
  (forall (G : Type) (normal_draw : G -> ld -> ld -> ld * G)
          (ld_exp ld_log ld_sqrt : ld -> ld)
          (Time Spot Strike r : ld) (type : ascii) (Premium tol : ld)
          (rd : nat -> G) (fuel : nat),
      calculateImpliedVolatility normal_draw ld_exp ld_log ld_sqrt
        Time Spot Strike r type Premium tol rd fuel = Aborted ->
      type <> "c"%char /\ type <> "p"%char).
Proof.
  split; [| split; [| split]].
  - intros this x type. rewrite profit_None. apply type_ok_spec.
  - intros this type. rewrite get_price_None. apply type_ok_spec.
  - intros G normal_draw ld_exp ld_log ld_sqrt seed T S K rate sigma.
    destruct (BSMmodel_new_Some normal_draw ld_exp ld_log ld_sqrt
                seed T S K rate sigma) as (model & ->).
    discriminate.
  - intros G normal_draw ld_exp ld_log ld_sqrt T S K rate type Premium tol
           rd fuel Hrun.
    apply type_ok_spec. unfold calculateImpliedVolatility in Hrun.
    exact (bisect_Aborted normal_draw ld_exp ld_log ld_sqrt
             T S K rate type Premium tol rd fuel _ _ Hrun).
Qed.

(** ** The theorems at the arguments of [main]

    [calculateImpliedVolatility(0.0493, 75.576, 75, 0.08, 'p', 1.298)], run
    with the scripted sampler. *)

Lemma bisection_terminates_within_bound_witness :
  0 < default_tol /\
  calculateImpliedVolatility scripted_draw (fun x => x) (fun x => x)
    (fun x => x) (493 # 10000) (75576 # 1000) 75 (8 # 100) "p"
    (1298 # 1000) default_tol (fun _ => sample_draws) 20 <> OutOfFuel.
Proof.
  split; [reflexivity |].
  apply (bisection_terminates_within_bound scripted_draw (fun x => x)
           (fun x => x) (fun x => x) (493 # 10000) (75576 # 1000) 75
           (8 # 100) "p" (1298 # 1000) default_tol (fun _ => sample_draws)).
  - reflexivity.
  - vm_compute. lia.
Defined.


Lemma bisection_step_by_comparison_witness :
  type_ok "p" = true /\
  exists (model : BSMmodel) (price : ld),
    BSMmodel_new scripted_draw (fun x => x) (fun x => x) (fun x => x)
      sample_draws (493 # 10000) (75576 # 1000) 75 (8 # 100)
      (mid_vol initial_bracket) = Some model /\
    get_price model "p" = Some price /\
    (1298 # 1000 < price ->
     loop_body scripted_draw (fun x => x) (fun x => x) (fun x => x)
       (493 # 10000) (75576 # 1000) 75 (8 # 100) "p" (1298 # 1000)
       sample_draws initial_bracket
     = Continue {| low_vol := low_vol initial_bracket;
                   high_vol := mid_vol initial_bracket |}) /\
    (price < 1298 # 1000 ->
     loop_body scripted_draw (fun x => x) (fun x => x) (fun x => x)
       (493 # 10000) (75576 # 1000) 75 (8 # 100) "p" (1298 # 1000)
       sample_draws initial_bracket
     = Continue {| low_vol := mid_vol initial_bracket;
                   high_vol := high_vol initial_bracket |}) /\
    (price == 1298 # 1000 ->
     loop_body scripted_draw (fun x => x) (fun x => x) (fun x => x)
       (493 # 10000) (75576 # 1000) 75 (8 # 100) "p" (1298 # 1000)
       sample_draws initial_bracket
     = Return (mid_vol initial_bracket)).
Proof.
  split; [reflexivity |].
  apply (bisection_step_by_comparison scripted_draw (fun x => x)
           (fun x => x) (fun x => x) (493 # 10000) (75576 # 1000) 75
           (8 # 100) "p" (1298 # 1000) sample_draws initial_bracket).
  reflexivity.
Defined.

Lemma returns_low_at_exit_witness :
  reachable scripted_draw (fun x => x) (fun x => x) (fun x => x)
    (493 # 10000) (75576 # 1000) 75 (8 # 100) "p" (1298 # 1000)
    6 (fun _ => sample_draws) 0 initial_bracket /\
  width initial_bracket <= 6 /\
  calculateImpliedVolatility scripted_draw (fun x => x) (fun x => x)
    (fun x => x) (493 # 10000) (75576 # 1000) 75 (8 # 100) "p"
    (1298 # 1000) 6 (fun _ => sample_draws) (0 + 3) = Done (3 # 100).
Proof.
  split; [constructor |]. split; [vm_compute; discriminate |].
  apply (returns_low_at_exit scripted_draw (fun x => x) (fun x => x)
           (fun x => x) (493 # 10000) (75576 # 1000) 75 (8 # 100) "p"
           (1298 # 1000) 6 (fun _ => sample_draws) 0%nat 3%nat
           initial_bracket).
  - constructor.
  - vm_compute. discriminate.
Defined.

Lemma implied_volatility_in_initial_bracket_witness :
  0 < default_tol /\
  (iter_bound initial_bracket default_tol <= 20)%nat /\
  exists v : ld,
    calculateImpliedVolatility scripted_draw (fun x => x) (fun x => x)
      (fun x => x) (493 # 10000) (75576 # 1000) 75 (8 # 100) "p"
      (1298 # 1000) default_tol (fun _ => sample_draws) 20 = Done v /\
    3 # 100 <= v /\ v <= 6.
Proof.
  split; [reflexivity |]. split; [vm_compute; lia |].
  apply (implied_volatility_in_initial_bracket scripted_draw (fun x => x)
           (fun x => x) (fun x => x) (493 # 10000) (75576 # 1000) 75
           (8 # 100) "p" (1298 # 1000) default_tol (fun _ => sample_draws)
           20%nat).
  - reflexivity.
  - vm_compute. lia.
  - reflexivity.
Defined.

(** C2 does not hold for every tolerance: with the tolerance [-1] and the
    observed premium [-1] the run of the solver ends for no amount of fuel,
    since the width stays above the tolerance and no model is as cheap as
    the premium. *)
Lemma negative_tolerance_never_terminates :
  ~ exists fuel : nat,
      calculateImpliedVolatility scripted_draw (fun x => x) (fun x => x)
        (fun x => x) (493 # 10000) (75576 # 1000) 75 (8 # 100) "p"
        (-1) (-1) (fun _ => sample_draws) fuel <> OutOfFuel.
Proof.
  intros (fuel & Hrun). apply Hrun. unfold calculateImpliedVolatility.
  apply bisect_nonpositive_tolerance; try reflexivity.
  vm_compute. discriminate.
Qed.

(** * Further properties of the pricer *)

(** X1: the call payoff does not decrease and the put payoff does not
    increase when the spot grows. *)
Theorem profit_monotone (this : BSMmodel) (x y : ld) :
  x <= y ->
  exists cx cy px py : ld,
    profit this x "c" = Some cx /\ profit this y "c" = Some cy /\
    profit this x "p" = Some px /\ profit this y "p" = Some py /\
    cx <= cy /\ py <= px.
Proof.
  intros Hxy.
  exists (std_max 0 (x - Strike this)), (std_max 0 (y - Strike this)),
         (std_max (Strike this - x) 0), (std_max (Strike this - y) 0).
  repeat (split; [reflexivity |]).
  unfold std_max.
  destruct (ld_ltb 0 (x - Strike this)) eqn:Ex;
    destruct (ld_ltb 0 (y - Strike this)) eqn:Ey;
    destruct (ld_ltb (Strike this - x) 0) eqn:Fx;
    destruct (ld_ltb (Strike this - y) 0) eqn:Fy;
    try apply ld_ltb_lt in Ex; try apply ld_ltb_ge in Ex;
    try apply ld_ltb_lt in Ey; try apply ld_ltb_ge in Ey;
    try apply ld_ltb_lt in Fx; try apply ld_ltb_ge in Fx;
    try apply ld_ltb_lt in Fy; try apply ld_ltb_ge in Fy;
    split; lra.
Qed.

Lemma profit_monotone_witness :
  70 <= 80 /\
  exists cx cy px py : ld,
    profit sample_contract 70 "c" = Some cx /\
    profit sample_contract 80 "c" = Some cy /\
    profit sample_contract 70 "p" = Some px /\
    profit sample_contract 80 "p" = Some py /\
    cx <= cy /\ py <= px.
Proof.
  split; [vm_compute; discriminate |].
  apply (profit_monotone sample_contract 70 80). vm_compute. discriminate.
Defined.

Lemma accumulate_shift (v : list ld) (a : ld) :
  accumulate v a == a + accumulate v 0.
Proof.
  unfold accumulate. revert a.
  induction v as [| x v IH]; intros a; simpl.
  - lra.
  - rewrite (IH (a + x)), (IH (0 + x)). lra.
Qed.

(** Summed over the paths, call payoffs less put payoffs are prices less
    strikes. *)
Lemma accumulate_parity (K : ld) (prices : list ld) :
  accumulate (map (fun x => std_max 0 (x - K)) prices) 0
  - accumulate (map (fun x => std_max (K - x) 0) prices) 0
  == accumulate prices 0 - inject_Z (Z.of_nat (length prices)) * K.
Proof.
  induction prices as [| x prices IH].
  - unfold accumulate. cbn [map fold_left length Z.of_nat].
    change (inject_Z (Z.of_nat 0)) with 0. lra.
  - cbn [map length]. unfold accumulate in *. cbn [fold_left].
    rewrite (accumulate_shift (map _ prices) (0 + std_max 0 (x - K))).
    rewrite (accumulate_shift (map _ prices) (0 + std_max (K - x) 0)).
    rewrite (accumulate_shift prices (0 + x)).
    unfold accumulate.
    rewrite Nat2Z.inj_succ. unfold Z.succ. rewrite inject_Z_plus.
    assert (Hx : std_max 0 (x - K) - std_max (K - x) 0 == x - K).
    { unfold std_max.
      destruct (ld_ltb 0 (x - K)) eqn:Ec;
        destruct (ld_ltb (K - x) 0) eqn:Ep;
        try apply ld_ltb_lt in Ec; try apply ld_ltb_ge in Ec;
        try apply ld_ltb_lt in Ep; try apply ld_ltb_ge in Ep; lra. }
    change (inject_Z 1) with 1.
    set (n := inject_Z (Z.of_nat (length prices))) in *.
    rewrite Qmult_plus_distr_l. set (nK := n * K) in *.
    unfold ld in *. lra.
Qed.

Lemma average_parity (n sc sp sx K : Q) :
  ~ n == 0 -> sc - sp == sx - n * K -> sc / n - sp / n == sx / n - K.
Proof.
  intros Hn Hpar. transitivity ((sc - sp) / n); [field; exact Hn |].
  rewrite Hpar. field. exact Hn.
Qed.

Section PricerMore.

Context {G : Type}.
Variable normal_draw : G -> ld -> ld -> ld * G.
Variables ld_exp ld_log ld_sqrt : ld -> ld.

Local Abbreviation time_body :=
  (time_body normal_draw ld_exp ld_log ld_sqrt).
Local Abbreviation time_loop :=
  (time_loop normal_draw ld_exp ld_log ld_sqrt).
Local Abbreviation calculatePremiums :=
  (calculatePremiums normal_draw ld_exp ld_log ld_sqrt).
Local Abbreviation gbm_paths :=
  (gbm_paths normal_draw ld_exp ld_log ld_sqrt).

(** X2: after every time step the three vectors still have
    [simulations_num] entries, so that no index of the inner loop is out of
    range, and the payoff vectors hold the call and put payoffs of the
    current prices, entry by entry. *)
Theorem simulation_vectors_consistent (seed : G) (this : BSMmodel)
    (dt : ld) (simulations_num : Z) (t : nat) :
  exists st : sim,
    time_loop this dt simulations_num (S t)
      (sim_init seed this simulations_num) = Some st /\
    sim_sized (Z.to_nat simulations_num) st /\
    call_profits st = map (fun x => std_max 0 (x - Strike this)) (spots st) /\
    put_profits st = map (fun x => std_max (Strike this - x) 0) (spots st).
Proof.
  destruct (time_loop_spec normal_draw ld_exp ld_log ld_sqrt this dt
              simulations_num t (sim_init seed this simulations_num)
              (sim_init_sized seed this simulations_num))
    as (st0 & Hrun & Hsz & _).
  pose proof (time_body_spec normal_draw ld_exp ld_log ld_sqrt this dt
                simulations_num st0 Hsz) as Hbody.
  cbv zeta in Hbody.
  eexists. split.
  - rewrite time_loop_snoc, Hrun. exact Hbody.
  - split.
    + exact (time_body_sized normal_draw ld_exp ld_log ld_sqrt this dt
               simulations_num st0 _ Hsz Hbody).
    + split; reflexivity.
Qed.

(** X4: at every time step, over at least one path, the average call
    payoff less the average put payoff is the average price less the
    strike. *)
Theorem step_average_parity (this : BSMmodel) (dt : ld)
    (simulations_num : Z) (st : sim) :
  (0 < simulations_num)%Z ->
  sim_sized (Z.to_nat simulations_num) st ->
  exists st' : sim,
    time_body this dt simulations_num st = Some st' /\
    accumulate (call_profits st') 0 / inject_Z simulations_num
    - accumulate (put_profits st') 0 / inject_Z simulations_num
    == accumulate (spots st') 0 / inject_Z simulations_num - Strike this.
Proof.
  intros Hpos Hsz.
  pose proof (time_body_spec normal_draw ld_exp ld_log ld_sqrt this dt
                simulations_num st Hsz) as Hbody.
  cbv zeta in Hbody. eexists. split; [exact Hbody |].
  cbn [spots call_profits put_profits].
  set (prices := fst (gbm_advance normal_draw ld_exp ld_log ld_sqrt
                        (r this) (Sigma this) dt (gen st) (spots st))).
  pose proof (accumulate_parity (Strike this) prices) as Hpar.
  assert (Hlen : length prices = Z.to_nat simulations_num).
  { unfold prices. rewrite gbm_advance_length. apply Hsz. }
  rewrite Hlen, Z2Nat.id in Hpar by lia.
  assert (Hn : ~ inject_Z simulations_num == 0).
  { change 0 with (inject_Z 0). rewrite inject_Z_injective. lia. }
  set (n := inject_Z simulations_num) in *.
  apply (average_parity n); [exact Hn | exact Hpar].
Qed.

(** X5: the premiums stored are at least the average payoff of every time
    step, the terminal step among them. *)
Theorem premium_dominates_step_averages (seed : G) (this : BSMmodel)
    (simulations_num time_nums : Z) :
  exists model : BSMmodel,
    calculatePremiums seed this simulations_num time_nums = Some model /\
    Forall (fun a => a <= call model)
      (map (average_payoff (call_payoff (Strike this)) simulations_num)
         (gbm_paths (r this) (Sigma this) (Time this / inject_Z time_nums)
            (Z.to_nat time_nums) seed
            (replicate (Z.to_nat simulations_num) (Spot this)))) /\
    Forall (fun a => a <= put model)
      (map (average_payoff (put_payoff (Strike this)) simulations_num)
         (gbm_paths (r this) (Sigma this) (Time this / inject_Z time_nums)
            (Z.to_nat time_nums) seed
            (replicate (Z.to_nat simulations_num) (Spot this)))).
Proof.
  destruct (calculatePremiums_spec normal_draw ld_exp ld_log ld_sqrt seed
              this simulations_num time_nums)
    as (model & Hrun & Hcall & Hput).
  cbv zeta in Hcall, Hput.
  exists model. split; [exact Hrun |]. unfold best_average in Hcall, Hput.
  split.
  - eapply Forall_impl; [apply (fold_right_Qmax_ge _ 0) |].
    simpl. intros a Ha. now rewrite Hcall.
  - eapply Forall_impl; [apply (fold_right_Qmax_ge _ 0) |].
    simpl. intros a Ha. now rewrite Hput.
Qed.

End PricerMore.

Lemma step_average_parity_witness :
  (0 < 2)%Z /\
  sim_sized (Z.to_nat 2) (sim_init sample_draws sample_contract 2) /\
  exists st' : sim,
    time_body scripted_draw (fun x => x) (fun x => x) (fun x => x)
      sample_contract (1 # 2) 2 (sim_init sample_draws sample_contract 2)
      = Some st' /\
    accumulate (call_profits st') 0 / inject_Z 2
    - accumulate (put_profits st') 0 / inject_Z 2
    == accumulate (spots st') 0 / inject_Z 2 - Strike sample_contract.
Proof.
  split; [lia |]. split; [vm_compute; repeat split |].
  apply (step_average_parity scripted_draw (fun x => x) (fun x => x)
           (fun x => x) sample_contract (1 # 2) 2
           (sim_init sample_draws sample_contract 2)).
  - lia.
  - vm_compute. repeat split.
Defined.

(** * Further properties of the solver *)

Section SolverMore.

Context {G : Type}.
Variable normal_draw : G -> ld -> ld -> ld * G.
Variables ld_exp ld_log ld_sqrt : ld -> ld.
Variables (Time Spot Strike r : ld) (type : ascii) (Premium tol : ld).
Variable rd : nat -> G.

Local Abbreviation BSMmodel_new :=
  (BSMmodel_new normal_draw ld_exp ld_log ld_sqrt).
Local Abbreviation loop_body :=
  (loop_body normal_draw ld_exp ld_log ld_sqrt
     Time Spot Strike r type Premium).
Local Abbreviation bisect :=
  (bisect normal_draw ld_exp ld_log ld_sqrt
     Time Spot Strike r type Premium tol rd).
Local Abbreviation calculateImpliedVolatility :=
  (calculateImpliedVolatility normal_draw ld_exp ld_log ld_sqrt
     Time Spot Strike r type Premium tol rd).
Local Abbreviation reachable :=
  (reachable normal_draw ld_exp ld_log ld_sqrt
     Time Spot Strike r type Premium tol rd).

(** X6: whatever the contract and the draws, a premium that a constructed
    model returns for a valid tag is not negative. *)
Theorem model_premium_nonneg (seed : G)
    (_Time _Spot _Strike _r _Sigma : ld) :
  type_ok type = true ->
  exists (model : BSMmodel) (price : ld),
    BSMmodel_new seed _Time _Spot _Strike _r _Sigma = Some model /\
    get_price model type = Some price /\ 0 <= price.
Proof.
  intros Hok.
  destruct (BSMmodel_new_Some normal_draw ld_exp ld_log ld_sqrt
              seed _Time _Spot _Strike _r _Sigma) as (model & Hnew).
  destruct (get_price_Some model type Hok) as (price & Hprice).
  exists model, price. split; [exact Hnew |]. split; [exact Hprice |].
  apply calculatePremiums_nonneg in Hnew. destruct Hnew as (Hc & Hp).
  unfold get_price in Hprice. rewrite Hok in Hprice.
  destruct (type =? "c")%char; injection Hprice as <-; assumption.
Qed.

(** X7: after [k] executions of the body the bracket has the width of the
    initial one over [2^k], whichever endpoints the comparisons moved. *)
Theorem bracket_width_after (k : nat) (b : bracket) :
  reachable k b ->
  width b == width initial_bracket / inject_Z (2 ^ Z.of_nat k).
Proof.
  intros Hreach.
  destruct (reachable_inv _ _ _ _ _ _ _ _ _ _ _ _ k b Hreach)
    as (_ & _ & _ & Hw).
  pose proof (pow2_pos k) as Hpos.
  rewrite <- Hw. symmetry. apply Qdiv_mult_l. lra.
Qed.

(** X9: with a tag other than ['c'] and ['p'] the solver aborts in its
    first iteration, unless the tolerance is at least the width of the
    initial bracket: then it returns 0.03 and the assertion is not
    reached. *)
Theorem invalid_tag_run :
  type_ok type = false ->
  (tol < width initial_bracket ->
   forall fuel : nat, calculateImpliedVolatility (S fuel) = Aborted) /\
  (width initial_bracket <= tol ->
   forall fuel : nat, calculateImpliedVolatility fuel = Done (3 # 100)).
Proof.
  intros Hbad. unfold calculateImpliedVolatility. split.
  - intros Hw fuel. cbn [bisect].
    assert (Hcond : ld_ltb tol (high_vol initial_bracket
                                - low_vol initial_bracket) = true)
      by now apply ld_ltb_lt.
    rewrite Hcond. unfold loop_body.
    destruct (BSMmodel_new_Some normal_draw ld_exp ld_log ld_sqrt (rd 0)
                Time Spot Strike r
                ((low_vol initial_bracket + high_vol initial_bracket) / 2))
      as (model & ->).
    assert (Hnone : get_price model type = None)
      by now apply get_price_None.
    now rewrite Hnone.
  - intros Hw fuel.
    assert (Hcond : ld_ltb tol (high_vol initial_bracket
                                - low_vol initial_bracket) = false)
      by now apply ld_ltb_ge.
    destruct fuel; cbn [bisect]; now rewrite Hcond.
Qed.

Lemma bisect_negative_premium (fuel : nat) :
  forall (k : nat) (b : bracket),
    Premium < 0 -> type_ok type = true ->
    bisect fuel k b = OutOfFuel \/ bisect fuel k b = Done (low_vol b).
Proof.
  induction fuel as [| fuel IH]; intros k b Hneg Hok; cbn [bisect];
    destruct (ld_ltb tol (high_vol b - low_vol b)); auto.
  rewrite (loop_body_negative_premium normal_draw ld_exp ld_log ld_sqrt
             Time Spot Strike r type Premium (rd k) b Hneg Hok).
  apply (IH (S k) {| low_vol := low_vol b; high_vol := mid_vol b |} Hneg Hok).
Qed.

(** X10: an observed premium below zero is below every premium of the
    pricer: for a positive tolerance the solver then returns the lower end
    0.03 of the initial bracket, without any sign that the premium cannot
    be attained. *)
Theorem negative_premium_returns_lower_bound (fuel : nat) :
  0 < tol -> Premium < 0 -> type_ok type = true ->
  (iter_bound initial_bracket tol <= fuel)%nat ->
  calculateImpliedVolatility fuel = Done (3 # 100).
Proof.
  intros Htol Hneg Hok Hfuel. unfold calculateImpliedVolatility.
  destruct (bisect_negative_premium fuel 0%nat initial_bracket Hneg Hok)
    as [Hout | Hdone].
  - exfalso. revert Hout.
    apply bisect_within_bound; [exact Htol | constructor | lia].
  - exact Hdone.
Qed.

Lemma loop_body_Return_price (seed : G) (b : bracket) (v : ld) :
  loop_body seed b = Return v ->
  exists (model : BSMmodel) (price : ld),
    BSMmodel_new seed Time Spot Strike r (mid_vol b) = Some model /\
    get_price model type = Some price /\ price == Premium /\
    v = mid_vol b.
Proof.
  unfold loop_body. fold (mid_vol b).
  destruct (BSMmodel_new seed Time Spot Strike r (mid_vol b))
    as [model |] eqn:Hnew; [| discriminate].
  destruct (get_price model type) as [price |] eqn:Hprice; [| discriminate].
  destruct (ld_ltb Premium price) eqn:Egt; [discriminate |].
  destruct (ld_ltb price Premium) eqn:Elt; [discriminate |].
  intros [= <-]. exists model, price.
  apply ld_ltb_ge in Egt. apply ld_ltb_ge in Elt.
  split; [reflexivity |]. split; [exact Hprice |].
  split; [lra | reflexivity].
Qed.

Lemma bisect_Done_cases (fuel : nat) :
  forall (k : nat) (b : bracket) (v : ld),
    reachable k b -> bisect fuel k b = Done v ->
    (exists (k' : nat) (b' : bracket),
        reachable k' b' /\ width b' <= tol /\ v = low_vol b') \/
    (exists (k' : nat) (b' : bracket) (model : BSMmodel) (price : ld),
        reachable k' b' /\ tol < width b' /\
        BSMmodel_new (rd k') Time Spot Strike r (mid_vol b') = Some model /\
        get_price model type = Some price /\ price == Premium /\
        v = mid_vol b').
Proof.
  induction fuel as [| fuel IH]; intros k b v Hreach; cbn [bisect];
    destruct (ld_ltb tol (high_vol b - low_vol b)) eqn:Hcond;
    try discriminate;
    try (intros [= <-]; left; exists k, b; apply ld_ltb_ge in Hcond;
         now repeat split).
  destruct (loop_body (rd k) b) as [b' | v' |] eqn:Hstep; try discriminate.
  - apply IH. now apply (reach_step _ _ _ _ _ _ _ _ _ _ _ _ k b b').
  - intros [= <-]. right.
    destruct (loop_body_Return_price (rd k) b v' Hstep)
      as (model & price & Hnew & Hprice & Heq & Hv).
    exists k, b, model, price. apply ld_ltb_lt in Hcond.
    now repeat split.
Qed.

(** X11: the solver returns nothing but the lower endpoint of a bracket of
    width at most [tol], or the midpoint of a wider bracket at which the
    premium of the model equals the observed premium. *)
Theorem returned_value_cases (fuel : nat) (v : ld) :
  calculateImpliedVolatility fuel = Done v ->
  (exists (k : nat) (b : bracket),
      reachable k b /\ width b <= tol /\ v = low_vol b) \/
  (exists (k : nat) (b : bracket) (model : BSMmodel) (price : ld),
      reachable k b /\ tol < width b /\
      BSMmodel_new (rd k) Time Spot Strike r (mid_vol b) = Some model /\
      get_price model type = Some price /\ price == Premium /\
      v = mid_vol b).
Proof.
  unfold calculateImpliedVolatility.
  apply bisect_Done_cases. constructor.
Qed.

End SolverMore.

Lemma model_premium_nonneg_witness :
  type_ok "c" = true /\
  exists (model : BSMmodel) (price : ld),
    BSMmodel_new scripted_draw (fun x => x) (fun x => x) (fun x => x)
      sample_draws (493 # 10000) (75576 # 1000) 75 (8 # 100) (1 # 2)
    = Some model /\
    get_price model "c" = Some price /\ 0 <= price.
Proof.
  split; [reflexivity |].
  apply (model_premium_nonneg scripted_draw (fun x => x) (fun x => x)
           (fun x => x) "c" sample_draws (493 # 10000) (75576 # 1000) 75
           (8 # 100) (1 # 2)).
  reflexivity.
Defined.

Lemma bracket_width_after_witness :
  reachable scripted_draw (fun x => x) (fun x => x) (fun x => x)
    (493 # 10000) (75576 # 1000) 75 (8 # 100) "p" (-1)
    default_tol (fun _ => sample_draws) 1
    {| low_vol := 3 # 100; high_vol := mid_vol initial_bracket |} /\
  width {| low_vol := 3 # 100; high_vol := mid_vol initial_bracket |}
  == width initial_bracket / inject_Z (2 ^ Z.of_nat 1).
Proof.
  assert (Hreach :
            reachable scripted_draw (fun x => x) (fun x => x) (fun x => x)
              (493 # 10000) (75576 # 1000) 75 (8 # 100) "p" (-1)
              default_tol (fun _ => sample_draws) 1
              {| low_vol := 3 # 100; high_vol := mid_vol initial_bracket |}).
  { apply (reach_step _ _ _ _ _ _ _ _ _ _ _ _ 0%nat initial_bracket).
    - constructor.
    - reflexivity.
    - apply loop_body_negative_premium; reflexivity. }
  split; [exact Hreach |].
  apply (bracket_width_after scripted_draw (fun x => x) (fun x => x)
           (fun x => x) (493 # 10000) (75576 # 1000) 75 (8 # 100) "p"
           (-1) default_tol (fun _ => sample_draws) 1%nat _ Hreach).
Defined.

Lemma invalid_tag_run_witness :
  type_ok "x" = false /\
  (default_tol < width initial_bracket ->
   forall fuel : nat,
     calculateImpliedVolatility scripted_draw (fun x => x) (fun x => x)
       (fun x => x) (493 # 10000) (75576 # 1000) 75 (8 # 100) "x"
       (1298 # 1000) default_tol (fun _ => sample_draws) (S fuel)
     = Aborted) /\
  (width initial_bracket <= default_tol ->
   forall fuel : nat,
     calculateImpliedVolatility scripted_draw (fun x => x) (fun x => x)
       (fun x => x) (493 # 10000) (75576 # 1000) 75 (8 # 100) "x"
       (1298 # 1000) default_tol (fun _ => sample_draws) fuel
     = Done (3 # 100)).
Proof.
  split; [reflexivity |].
  apply (invalid_tag_run scripted_draw (fun x => x) (fun x => x)
           (fun x => x) (493 # 10000) (75576 # 1000) 75 (8 # 100) "x"
           (1298 # 1000) default_tol (fun _ => sample_draws)).
  reflexivity.
Defined.

Lemma negative_premium_returns_lower_bound_witness :
  0 < default_tol /\ -1 < 0 /\ type_ok "p" = true /\
  (iter_bound initial_bracket default_tol <= 20)%nat /\
  calculateImpliedVolatility scripted_draw (fun x => x) (fun x => x)
    (fun x => x) (493 # 10000) (75576 # 1000) 75 (8 # 100) "p"
    (-1) default_tol (fun _ => sample_draws) 20 = Done (3 # 100).
Proof.
  split; [reflexivity |]. split; [reflexivity |]. split; [reflexivity |].
  split; [vm_compute; lia |].
  apply (negative_premium_returns_lower_bound scripted_draw (fun x => x)
           (fun x => x) (fun x => x) (493 # 10000) (75576 # 1000) 75
           (8 # 100) "p" (-1) default_tol (fun _ => sample_draws) 20%nat).
  - reflexivity.
  - reflexivity.
  - reflexivity.
  - vm_compute. lia.
Defined.

Lemma returned_value_cases_witness :
  calculateImpliedVolatility scripted_draw (fun x => x) (fun x => x)
    (fun x => x) (493 # 10000) (75576 # 1000) 75 (8 # 100) "p"
    (1298 # 1000) 6 (fun _ => sample_draws) 0 = Done (3 # 100) /\
  ((exists (k : nat) (b : bracket),
       reachable scripted_draw (fun x => x) (fun x => x) (fun x => x)
         (493 # 10000) (75576 # 1000) 75 (8 # 100) "p" (1298 # 1000)
         6 (fun _ => sample_draws) k b /\
       width b <= 6 /\ 3 # 100 = low_vol b) \/
   (exists (k : nat) (b : bracket) (model : BSMmodel) (price : ld),
       reachable scripted_draw (fun x => x) (fun x => x) (fun x => x)
         (493 # 10000) (75576 # 1000) 75 (8 # 100) "p" (1298 # 1000)
         6 (fun _ => sample_draws) k b /\
       6 < width b /\
       BSMmodel_new scripted_draw (fun x => x) (fun x => x) (fun x => x)
         sample_draws (493 # 10000) (75576 # 1000) 75 (8 # 100) (mid_vol b)
       = Some model /\
       get_price model "p" = Some price /\ price == 1298 # 1000 /\
       3 # 100 = mid_vol b)).
Proof.
  split; [reflexivity |].
  apply (returned_value_cases scripted_draw (fun x => x) (fun x => x)
           (fun x => x) (493 # 10000) (75576 # 1000) 75 (8 # 100) "p"
           (1298 # 1000) 6 (fun _ => sample_draws) 0%nat (3 # 100)).
  reflexivity.
Defined.

(** * The solver in rounded arithmetic *)

(** ** Rounding to the nearest value *)

Lemma pow2_nonneg_inject (a : Z) : (0 <= a)%Z -> 2 ^ a == inject_Z (2 ^ a).
Proof. intros Ha. rewrite Zpower_Qpower by exact Ha. reflexivity. Qed.

Lemma mag_le (x : Q) : 0 < x -> 2 ^ mag x <= x.
Proof.
  intros Hx. unfold mag.
  set (n := Qnum x). set (d := Qden x).
  destruct (Qle_bool (2 ^ (Z.log2 n - Z.log2 (Z.pos d))) x) eqn:E.
  - now apply Qle_bool_iff.
  - clear E.
    assert (Hn : (0 < n)%Z).
    { unfold Qlt in Hx. simpl in Hx. subst n. lia. }
    pose proof (Z.log2_spec n Hn) as [Hn1 _].
    pose proof (Z.log2_spec (Z.pos d) (Pos2Z.is_pos d)) as [_ Hd2].
    pose proof (Z.log2_nonneg n) as Hln.
    pose proof (Z.log2_nonneg (Z.pos d)) as Hld.
    replace (Z.log2 n - Z.log2 (Z.pos d) - 1)%Z
      with (Z.log2 n - Z.succ (Z.log2 (Z.pos d)))%Z by lia.
    rewrite Qpower_minus by discriminate.
    rewrite !pow2_nonneg_inject by lia.
    assert (Hx' : x == inject_Z n / inject_Z (Z.pos d)).
    { subst n d. destruct x as [xn xd]. simpl. apply Qmake_Qdiv. }
    rewrite Hx'.
    assert (Hp : (0 < 2 ^ Z.succ (Z.log2 (Z.pos d)))%Z) by (apply Z.pow_pos_nonneg; lia).
    apply Qle_shift_div_l.
    { change 0 with (inject_Z 0). rewrite <- Zlt_Qlt. lia. }
    unfold Qdiv. rewrite <- Qmult_assoc, (Qmult_comm (/ _)), Qmult_assoc.
    apply Qle_shift_div_r.
    { change 0 with (inject_Z 0). rewrite <- Zlt_Qlt. lia. }
    rewrite <- !inject_Z_mult, <- Zle_Qle. nia.
Qed.

Lemma rne_error (m : Q) : Qabs (inject_Z (rne m) - m) <= 1 # 2.
Proof.
  unfold rne. pose proof (Qfloor_le m) as Hlo. pose proof (Qlt_floor m) as Hhi.
  set (f := Qfloor m) in *. rewrite inject_Z_plus in Hhi.
  change (inject_Z 1) with 1 in Hhi.
  apply Qabs_Qle_condition.
  destruct (Qcompare (m - inject_Z f) (1 # 2)) eqn:E.
  - apply Qeq_alt in E. destruct (Z.even f).
    + split; lra.
    + rewrite inject_Z_plus. change (inject_Z 1) with 1. split; lra.
  - apply Qlt_alt in E. split; lra.
  - apply Qgt_alt in E. rewrite inject_Z_plus. change (inject_Z 1) with 1. split; lra.
Qed.

Lemma round_pos_error (prec : Z) (x : Q) :
  0 < x -> Qabs (round_pos prec x - x) <= x * 2 ^ (- prec).
Proof.
  intros Hx. unfold round_pos. rewrite Qred_correct.
  set (ulp := 2 ^ (mag x - (prec - 1))).
  assert (Hulp : 0 < ulp) by (apply Qpower_0_lt; reflexivity).
  pose proof (rne_error (x / ulp)) as Herr.
  set (m := inject_Z (rne (x / ulp))) in *.
  assert (Hx' : x == (x / ulp) * ulp) by (field; lra).
  assert (Heq : m * ulp - x == (m - x / ulp) * ulp).
  { rewrite Hx' at 1. ring. }
  rewrite Heq, Qabs_Qmult, (Qabs_pos ulp) by lra.
  assert (Hhalf : ulp * (1 # 2) == 2 ^ mag x * 2 ^ (- prec)).
  { unfold ulp. replace (mag x - (prec - 1))%Z with (mag x + (- prec) + 1)%Z by lia.
    rewrite !Qpower_plus by discriminate. change (2 ^ 1) with 2. field. }
  pose proof (mag_le x Hx) as Hmag.
  assert (Hpp : 0 < 2 ^ (- prec)) by (apply Qpower_0_lt; reflexivity).
  apply Qle_trans with ((1 # 2) * ulp).
  - apply Qmult_le_compat_r; [exact Herr | lra].
  - rewrite Qmult_comm, Hhalf. apply Qmult_le_compat_r; lra.
Qed.

Lemma round_error (prec : Z) (x : Q) :
  Qabs (round prec x - x) <= Qabs x * 2 ^ (- prec).
Proof.
  unfold round. destruct (Qcompare x 0) eqn:E.
  - apply Qeq_alt in E. rewrite E.
    change (Qabs (0 - 0)) with 0. change (Qabs 0) with 0.
    rewrite Qmult_0_l. apply Qle_refl.
  - apply Qlt_alt in E.
    assert (Hx : 0 < - x) by lra.
    pose proof (round_pos_error prec (- x) Hx) as H.
    rewrite (Qabs_neg x) by lra.
    assert (Hopp : - round_pos prec (- x) - x
                   == - (round_pos prec (- x) - - x)) by ring.
    now rewrite Hopp, Qabs_opp.
  - apply Qgt_alt in E. rewrite (Qabs_pos x) by lra.
    apply round_pos_error. exact E.
Qed.

(** The relative error of a [long double] operation is at most [2^-64]. *)
Lemma ld_round_nonneg (x : Q) :
  0 <= x ->
  x * (1 - (1 # 18446744073709551616)) <= ld_round x /\
  ld_round x <= x * (1 + (1 # 18446744073709551616)).
Proof.
  intros Hx. pose proof (round_error 64 x) as H.
  rewrite (Qabs_pos x) in H by exact Hx.
  change (2 ^ Z.opp 64) with (1 # 18446744073709551616) in H.
  apply Qabs_Qle_condition in H. unfold ld_round. split; lra.
Qed.

Lemma ld_round_nonpos (x : Q) :
  x <= 0 ->
  x * (1 + (1 # 18446744073709551616)) <= ld_round x /\
  ld_round x <= x * (1 - (1 # 18446744073709551616)).
Proof.
  intros Hx. pose proof (round_error 64 x) as H.
  rewrite (Qabs_neg x) in H by exact Hx.
  change (2 ^ Z.opp 64) with (1 # 18446744073709551616) in H.
  apply Qabs_Qle_condition in H. unfold ld_round. split; lra.
Qed.

(** The rounded midpoint is within [2^-59] of the midpoint. *)
Lemma rounded_mid_error (l h : ld) :
  0 <= l + h -> l + h <= 16 ->
  (l + h) / 2 - (1 # 576460752303423488) <= ld_div (ld_add l h) 2 /\
  ld_div (ld_add l h) 2 <= (l + h) / 2 + (1 # 576460752303423488).
Proof.
  intros Hlo Hhi. unfold ld_div, ld_add.
  destruct (ld_round_nonneg (l + h) Hlo) as (Hs1 & Hs2).
  set (s := ld_round (l + h)) in *.
  assert (Hs : 0 <= s / 2) by (rewrite half_is_mult; lra).
  destruct (ld_round_nonneg (s / 2) Hs) as (Hm1 & Hm2).
  set (m := ld_round (s / 2)) in *.
  rewrite half_is_mult in Hm1, Hm2. rewrite (half_is_mult (l + h)).
  unfold ld in *. split; lra.
Qed.


(** ** The loop on rounded midpoints *)

Lemma rounded_low0 :
  low_vol rounded_initial_bracket = 1080863910568919 # 36028797018963968.
Proof. vm_compute. reflexivity. Qed.

Lemma ratio_succ (w : Q) (k : nat) :
  w / inject_Z (2 ^ Z.of_nat (S k)) == w / inject_Z (2 ^ Z.of_nat k) * (1 # 2).
Proof.
  rewrite pow2_succ. pose proof (pow2_pos k) as Hpos.
  field. lra.
Qed.

Lemma rounded_inv_init : rounded_inv 0 rounded_initial_bracket.
Proof.
  unfold rounded_inv, width. rewrite rounded_low0.
  cbn [high_vol low_vol rounded_initial_bracket].
  change (inject_Z (2 ^ Z.of_nat 0)) with 1.
  change (inject_Z (Z.of_nat 0)) with 0.
  change midpoint_slack with (1 # 288230376151711744).
  repeat split; try (vm_compute; discriminate).
Qed.

Section RoundedFacts.
Variable price : nat -> ld -> option ld.
Variables (Premium tol : ld).

Local Abbreviation rounded_loop_body := (rounded_loop_body price Premium).
Local Abbreviation rounded_bisect := (rounded_bisect price Premium tol).

Lemma rounded_loop_body_Continue (k : nat) (b b' : bracket) :
  rounded_loop_body k b = Continue b' ->
  b' = {| low_vol := low_vol b;
          high_vol := ld_div (ld_add (low_vol b) (high_vol b)) 2 |} \/
  b' = {| low_vol := ld_div (ld_add (low_vol b) (high_vol b)) 2;
          high_vol := high_vol b |}.
Proof.
  unfold rounded_loop_body.
  destruct (price k _) as [p |]; [| discriminate].
  destruct (ld_ltb Premium p); [intros [= <-]; now left |].
  destruct (ld_ltb p Premium); [intros [= <-]; now right |].
  discriminate.
Qed.

Lemma rounded_inv_step (k : nat) (b b' : bracket) :
  rounded_inv k b -> (k < 1000)%nat ->
  rounded_loop_body k b = Continue b' ->
  rounded_inv (S k) b'.
Proof.
  unfold rounded_inv, width. rewrite rounded_low0.
  cbn [high_vol low_vol rounded_initial_bracket].
  intros (Hlo & Hhi & Hw1 & Hw2) Hk Hstep.
  rewrite ratio_succ, Nat2Z.inj_succ. unfold Z.succ. rewrite inject_Z_plus.
  change (inject_Z 1) with 1.
  assert (Hkq : inject_Z (Z.of_nat k) <= 999).
  { change 999 with (inject_Z 999). rewrite <- Zle_Qle. lia. }
  assert (Hk0 : 0 <= inject_Z (Z.of_nat k)).
  { change 0 with (inject_Z 0). rewrite <- Zle_Qle. lia. }
  set (kq := inject_Z (Z.of_nat k)) in *.
  assert (HA : 0 <= (6 - (1080863910568919 # 36028797018963968))
                    / inject_Z (2 ^ Z.of_nat k)).
  { apply Qle_shift_div_l; [apply pow2_pos |]. rewrite Qmult_0_l.
    vm_compute. discriminate. }
  set (A := _ / inject_Z (2 ^ Z.of_nat k)) in *.
  change midpoint_slack with (1 # 288230376151711744) in *.
  set (l := low_vol b) in *. set (h := high_vol b) in *.
  assert (Hsum0 : 0 <= l + h) by (unfold ld in *; lra).
  assert (Hsum1 : l + h <= 16) by (unfold ld in *; lra).
  destruct (rounded_mid_error l h Hsum0 Hsum1) as (Hm1 & Hm2).
  rewrite half_is_mult in Hm1, Hm2.
  destruct (rounded_loop_body_Continue k b b' Hstep) as [-> | ->];
    cbn [high_vol low_vol]; fold l h;
    set (m := ld_div (ld_add l h) 2) in *; unfold ld in *;
    repeat split; lra.
Qed.

Lemma rounded_exit (b : bracket) (A : Q) :
  width b <= A + midpoint_slack ->
  (A + midpoint_slack) * (1 + ld_unit_roundoff) <= tol ->
  0 <= A ->
  ld_ltb tol (ld_sub (high_vol b) (low_vol b)) = false.
Proof.
  unfold width, ld_sub.
  change midpoint_slack with (1 # 288230376151711744).
  change ld_unit_roundoff with (1 # 18446744073709551616).
  intros Hw Htol HA. apply ld_ltb_ge.
  set (W := high_vol b - low_vol b) in *.
  destruct (Qlt_le_dec W 0) as [Hneg | Hpos].
  - destruct (ld_round_nonpos W) as (_ & H); [lra |]. unfold ld in *. lra.
  - destruct (ld_round_nonneg W Hpos) as (_ & H). unfold ld in *. lra.
Qed.

Lemma rounded_bisect_within (n fuel : nat) :
  forall (k : nat) (b : bracket),
    (n <= 1000)%nat ->
    (width rounded_initial_bracket / inject_Z (2 ^ Z.of_nat n)
     + midpoint_slack) * (1 + ld_unit_roundoff) <= tol ->
    rounded_inv k b -> (k <= n)%nat -> (n <= k + fuel)%nat ->
    rounded_bisect fuel k b <> OutOfFuel.
Proof.
  intros k b Hn Htol. revert k b.
  assert (Hexit : forall b, rounded_inv n b ->
            ld_ltb tol (ld_sub (high_vol b) (low_vol b)) = false).
  { intros b (_ & _ & _ & Hw).
    apply (rounded_exit b _ Hw Htol).
    pose proof (pow2_pos n). apply Qle_shift_div_l; [assumption |].
    rewrite Qmult_0_l. unfold width. rewrite rounded_low0. simpl.
    vm_compute. discriminate. }
  induction fuel as [| fuel IH]; intros k b Hinv Hkn Hfuel;
    cbn [rounded_bisect];
    destruct (ld_ltb tol (ld_sub (high_vol b) (low_vol b))) eqn:Hcond;
    try discriminate.
  - assert (k = n) by lia. subst k. rewrite (Hexit b Hinv) in Hcond.
    discriminate.
  - destruct (Nat.eq_dec k n) as [-> | Hne].
    { rewrite (Hexit b Hinv) in Hcond. discriminate. }
    destruct (rounded_loop_body k b) as [b' | v |] eqn:Hstep;
      try discriminate.
    apply IH; [| lia | lia].
    apply (rounded_inv_step k b b' Hinv); [lia | exact Hstep].
Qed.

End RoundedFacts.

(** The condition on [n] makes the tolerance positive and [n] at least the
    bound of exact arithmetic. *)
Lemma rounded_condition_exact (tol : ld) (n : nat) :
  (width rounded_initial_bracket / inject_Z (2 ^ Z.of_nat n)
   + midpoint_slack) * (1 + ld_unit_roundoff) <= tol ->
  0 < tol /\ (iter_bound rounded_initial_bracket tol <= n)%nat.
Proof.
  change midpoint_slack with (1 # 288230376151711744).
  change ld_unit_roundoff with (1 # 18446744073709551616).
  intros Htol. pose proof (pow2_pos n) as Hpos.
  assert (Hw : 0 < width rounded_initial_bracket) by reflexivity.
  assert (HA : 0 <= width rounded_initial_bracket
                    / inject_Z (2 ^ Z.of_nat n)).
  { apply Qle_shift_div_l; [exact Hpos |]. rewrite Qmult_0_l. lra. }
  set (A := width rounded_initial_bracket / inject_Z (2 ^ Z.of_nat n)) in *.
  assert (Hpos_tol : 0 < tol) by (unfold ld in *; lra).
  split; [exact Hpos_tol |].
  apply (iter_bound_spec rounded_initial_bracket tol Hpos_tol).
  assert (HwA : width rounded_initial_bracket
                == A * inject_Z (2 ^ Z.of_nat n)).
  { unfold A. rewrite Qmult_comm. symmetry. apply Qmult_div_r. lra. }
  rewrite HwA.
  apply Qmult_le_compat_r; unfold ld in *; lra.
Qed.

Lemma rounded_bisect_negative_tolerance (fuel : nat) :
  forall (k : nat) (b : bracket),
    low_vol b = low_vol rounded_initial_bracket ->
    0 <= high_vol b -> high_vol b <= 6 ->
    rounded_bisect (fun _ _ => Some 0) (-1) (-1) fuel k b = OutOfFuel.
Proof.
  induction fuel as [| fuel IH]; intros k b Hlow Hh0 Hh6;
    cbn [rounded_bisect];
    assert (Hcond : ld_ltb (-1) (ld_sub (high_vol b) (low_vol b)) = true).
  1, 3: apply ld_ltb_lt; rewrite Hlow, rounded_low0; unfold ld_sub;
    set (W := high_vol b - _);
    assert (HW : - (3 # 100) <= W) by (unfold W, ld in *; lra);
    destruct (Qlt_le_dec W 0) as [Hneg | Hpos];
    [ destruct (ld_round_nonpos W) as (H & _); [lra |]; unfold ld in *; lra
    | destruct (ld_round_nonneg W Hpos) as (H & _); unfold ld in *; lra ].
  - now rewrite Hcond.
  - rewrite Hcond. unfold rounded_loop_body.
    change (ld_ltb (-1) 0) with true. cbv iota.
    apply IH; cbn [low_vol high_vol]; [exact Hlow | |];
      rewrite Hlow, rounded_low0;
      set (l := 1080863910568919 # 36028797018963968);
      set (h := high_vol b) in *;
      assert (Hs0 : 0 <= l + h) by (unfold l, ld in *; lra);
      assert (Hs1 : l + h <= 16) by (unfold l, ld in *; lra);
      destruct (rounded_mid_error l h Hs0 Hs1) as (Hm1 & Hm2);
      rewrite half_is_mult in Hm1, Hm2;
      set (m := ld_div (ld_add l h) 2) in *; unfold l, ld in *; lra.
Qed.

(** In rounded arithmetic too, the tolerance [-1] and the observed premium
    [-1] keep the loop running for ever. *)
Lemma rounded_negative_tolerance_never_terminates :
  ~ exists fuel : nat,
      rounded_calculateImpliedVolatility (fun _ _ => Some 0) (-1) (-1) fuel
      <> OutOfFuel.
Proof.
  intros (fuel & Hrun). apply Hrun.
  unfold rounded_calculateImpliedVolatility.
  apply rounded_bisect_negative_tolerance;
    [reflexivity | vm_compute; discriminate | vm_compute; discriminate].
Qed.

(** C2: in the arithmetic of [long double], whatever the premiums that the
    models return, the loop ends within [n] executions of its body for
    every [n] with [((high0 - low0) / 2^n + 2^-58) (1 + 2^-64) <= tol], a
    condition that only a positive tolerance meets: each iteration returns
    or replaces an endpoint with the rounded midpoint, which halves the
    width up to [2^-59].  Such an [n] is at least the bound
    [ceil(log2((high0 - low0) / tol))] of exact arithmetic.  For the
    bracket [0.03, 6] and the tolerance [1e-5] of the code, 20 executions
    are enough. *)
Theorem rounded_bisection_terminates
    (price : nat -> ld -> option ld) (Premium tol : ld) (n : nat) :
  (n <= 1000)%nat ->
  (width rounded_initial_bracket / inject_Z (2 ^ Z.of_nat n)
   + midpoint_slack) * (1 + ld_unit_roundoff) <= tol ->
  (forall fuel : nat,
      (n <= fuel)%nat ->
      rounded_calculateImpliedVolatility price Premium tol fuel
      <> OutOfFuel) /\
  (forall fuel : nat,
      (20 <= fuel)%nat ->
      rounded_calculateImpliedVolatility price Premium rounded_default_tol
        fuel <> OutOfFuel) /\
  0 < tol /\ (iter_bound rounded_initial_bracket tol <= n)%nat.
Proof.
  intros Hn Htol. unfold rounded_calculateImpliedVolatility.
  split; [| split].
  - intros fuel Hfuel.
    apply (rounded_bisect_within price Premium tol n fuel);
      [exact Hn | exact Htol | apply rounded_inv_init | lia | lia].
  - intros fuel Hfuel.
    apply (rounded_bisect_within price Premium rounded_default_tol
             20%nat fuel);
      [lia | vm_compute; discriminate | apply rounded_inv_init | lia | lia].
  - apply rounded_condition_exact. exact Htol.
Qed.

Lemma rounded_bisection_terminates_witness :
  (20 <= 1000)%nat /\
  (width rounded_initial_bracket / inject_Z (2 ^ Z.of_nat 20)
   + midpoint_slack) * (1 + ld_unit_roundoff) <= rounded_default_tol /\
  rounded_calculateImpliedVolatility (fun _ mid => Some mid) (1298 # 1000)
    rounded_default_tol 20 <> OutOfFuel.
Proof.
  split; [lia |]. split; [vm_compute; discriminate |].
  apply (rounded_bisection_terminates (fun _ mid => Some mid) (1298 # 1000)
           rounded_default_tol 20%nat).
  - lia.
  - vm_compute. discriminate.
  - lia.
Defined.

(** The slack is needed.  With the tolerance [(high0 - low0) / 2^20], a
    [long double], the exact bound [iter_bound] is 20; when every model is
    cheaper than the observed premium, the rounded midpoints leave a width
    above the tolerance after 20 executions of the body, and the loop ends
    with the 21st. *)
Lemma rounded_run_exceeds_exact_bound :
  let tol := width rounded_initial_bracket / inject_Z (2 ^ 20) in
  0 < tol /\ ld_round tol == tol /\
  iter_bound rounded_initial_bracket tol = 20%nat /\
  rounded_calculateImpliedVolatility (fun _ _ => Some 0) 1 tol 20
  = OutOfFuel /\
  exists v : ld,
    rounded_calculateImpliedVolatility (fun _ _ => Some 0) 1 tol 21
    = Done v.
Proof.
  cbv zeta. split; [reflexivity |]. split; [reflexivity |].
  split; [reflexivity |]. split; [vm_compute; reflexivity |].
  eexists. vm_compute. reflexivity.
Qed.

(** At the default tolerance the two models agree on a run: 20 executions
    of the body and not fewer, here with every model too dear. *)
Lemma rounded_default_run :
  rounded_calculateImpliedVolatility (fun _ _ => Some 0) (-1)
    rounded_default_tol 19 = OutOfFuel /\
  rounded_calculateImpliedVolatility (fun _ _ => Some 0) (-1)
    rounded_default_tol 20 = Done (low_vol rounded_initial_bracket).
Proof. split; vm_compute; reflexivity. Qed.

Lemma ratio_antitone (w : Q) (k m : nat) :
  0 <= w -> (k <= m)%nat ->
  w / inject_Z (2 ^ Z.of_nat m) <= w / inject_Z (2 ^ Z.of_nat k).
Proof.
  intros Hw Hkm. induction Hkm as [| m Hkm IH].
  - apply Qle_refl.
  - rewrite ratio_succ.
    assert (H0 : 0 <= w / inject_Z (2 ^ Z.of_nat m)).
    { apply Qle_shift_div_l; [apply pow2_pos |]. now rewrite Qmult_0_l. }
    lra.
Qed.

Section RoundedDefaultRun.

Variable price : nat -> ld -> option ld.
Variable Premium : ld.

(** No model aborts and none returns the observed premium exactly. *)
Hypothesis no_match :
  forall (k : nat) (mid : ld),
    exists p : ld, price k mid = Some p /\ ~ p == Premium.

Lemma rounded_loop_body_no_match (k : nat) (b : bracket) :
  exists b' : bracket,
    rounded_loop_body price Premium k b = Continue b'.
Proof using no_match.
  unfold rounded_loop_body.
  destruct (no_match k (ld_div (ld_add (low_vol b) (high_vol b)) 2))
    as (p & -> & Hne).
  destruct (ld_ltb Premium p) eqn:Egt; [eexists; reflexivity |].
  destruct (ld_ltb p Premium) eqn:Elt; [eexists; reflexivity |].
  exfalso. apply Hne. apply ld_ltb_ge in Egt. apply ld_ltb_ge in Elt. lra.
Qed.

Lemma rounded_bisect_default_short (fuel : nat) :
  forall (k : nat) (b : bracket),
    rounded_inv k b -> (k + fuel <= 19)%nat ->
    rounded_bisect price Premium rounded_default_tol fuel k b = OutOfFuel.
Proof using no_match.
  induction fuel as [| fuel IH]; intros k b Hinv Hk; cbn [rounded_bisect];
    assert (Hcond : ld_ltb rounded_default_tol
                      (ld_sub (high_vol b) (low_vol b)) = true).
  1, 3: apply ld_ltb_lt; destruct Hinv as (_ & _ & Hw & _);
    pose proof (ratio_antitone (width rounded_initial_bracket) k 19) as Hr;
    assert (Hw0 : 0 <= width rounded_initial_bracket)
      by (vm_compute; discriminate);
    specialize (Hr Hw0 ltac:(lia));
    assert (Hc : rounded_default_tol
                 < (width rounded_initial_bracket
                    / inject_Z (2 ^ Z.of_nat 19)
                    - (1 # 288230376151711744))
                   * (1 - (1 # 18446744073709551616))) by reflexivity;
    assert (Hc0 : 0 <= rounded_default_tol) by (vm_compute; discriminate);
    change midpoint_slack with (1 # 288230376151711744) in Hw;
    unfold ld_sub, width in *;
    set (W := high_vol b - low_vol b) in *;
    set (A := _ / inject_Z (2 ^ Z.of_nat k)) in *;
    set (A19 := _ / inject_Z (2 ^ Z.of_nat 19)) in *;
    set (t := rounded_default_tol) in *;
    assert (HW : 0 <= W) by (unfold ld in *; lra);
    destruct (ld_round_nonneg W HW) as (H & _); unfold ld in *; lra.
  - now rewrite Hcond.
  - rewrite Hcond.
    destruct (rounded_loop_body_no_match k b) as (b' & Hstep).
    rewrite Hstep. apply IH; [| lia].
    apply (rounded_inv_step price Premium k b b' Hinv); [lia | exact Hstep].
Qed.

Lemma rounded_bisect_no_abort (tol : ld) (fuel : nat) :
  forall (k : nat) (b : bracket),
    rounded_bisect price Premium tol fuel k b <> Aborted.
Proof using no_match.
  induction fuel as [| fuel IH]; intros k b; cbn [rounded_bisect];
    destruct (ld_ltb tol (ld_sub (high_vol b) (low_vol b)));
    try discriminate.
  destruct (rounded_loop_body_no_match k b) as (b' & ->). apply IH.
Qed.

(** X12: in the arithmetic of [long double], with the bracket and the
    tolerance [1e-5] of the code, a run in which no model aborts and none
    returns the observed premium exactly executes the loop body 20 times,
    not fewer, and then returns: it constructs exactly 20 models. *)
Theorem rounded_default_run_length :
  rounded_calculateImpliedVolatility price Premium rounded_default_tol 19
  = OutOfFuel /\
  exists v : ld,
    rounded_calculateImpliedVolatility price Premium rounded_default_tol 20
    = Done v.
Proof using no_match.
  unfold rounded_calculateImpliedVolatility. split.
  - apply rounded_bisect_default_short; [apply rounded_inv_init | lia].
  - destruct (rounded_bisect price Premium rounded_default_tol 20 0
                rounded_initial_bracket) as [v | |] eqn:Hrun.
    + now exists v.
    + exfalso. revert Hrun. apply rounded_bisect_no_abort.
    + exfalso. revert Hrun.
      apply (rounded_bisect_within price Premium rounded_default_tol
               20%nat 20%nat);
        [lia | vm_compute; discriminate | apply rounded_inv_init
        | lia | lia].
Qed.

End RoundedDefaultRun.

Lemma rounded_default_run_length_witness :
  (forall (k : nat) (mid : ld),
      exists p : ld, Some 0 = Some p /\ ~ p == -1) /\
  rounded_calculateImpliedVolatility (fun _ _ => Some 0) (-1)
    rounded_default_tol 19 = OutOfFuel /\
  exists v : ld,
    rounded_calculateImpliedVolatility (fun _ _ => Some 0) (-1)
      rounded_default_tol 20 = Done v.
Proof.
  assert (H : forall (k : nat) (mid : ld),
             exists p : ld, Some 0 = Some p /\ ~ p == -1).
  { intros k mid. exists 0. split; [reflexivity | discriminate]. }
  split; [exact H |].
  apply (rounded_default_run_length (fun _ _ => Some 0) (-1) H).
Defined.
